(** * Readability analysis: syllable estimator, tokenizer filters, metrics

    A shallow embedding of [readability_tools.py].

    Conventions of the embedding:
    - a Python [str] is a [string]; characters are the 256 [ascii] values and
      the character classes ([isalpha], [isalnum], [\d], [\w], [lower]) are
      the ASCII ones, so characters above 127 are neither letters nor digits;
    - a Python exception is a value of [exn]; a function that can raise
      returns a [result]; [try ... except E] is [try_except];
    - the recursion of [nsyl] is bounded by the interpreter's recursion limit,
      which is the [limit] argument: when it is exhausted the call raises
      [RecursionError], as CPython does;
    - the collaborators that are not part of the repository (the CMU
      pronouncing dictionary, the NLTK tokenizers and the POS tagger) are
      section variables;
    - real numbers are exact rationals ([Q]); binary floating-point rounding
      is not modelled;
    - [statistics.mode] is the one of Python 3.8 and later, which returns the
      first of several equally common values where the earlier one raised
      [StatisticsError]. *)

From Stdlib Require Import ZArith QArith Qround Qabs Lqa String Ascii List Bool Lia.
From stdpp Require Import gmap strings.
Import ListNotations.

Local Open Scope string_scope.
Local Open Scope Z_scope.

(* ===================================================================== *)
(** ** Exceptions *)
(* ===================================================================== *)

Inductive exn : Type :=
| KeyError
| IndexError
| StatisticsError
| ZeroDivisionError
| ValueError
| RecursionError.

Inductive result (A : Type) : Type :=
| Ok (a : A)
| Raise (e : exn).

Arguments Ok {A} a.
Arguments Raise {A} e.

Definition bind {A B : Type} (m : result A) (k : A -> result B) : result B :=
  match m with
  | Ok a => k a
  | Raise e => Raise e
  end.

Notation "'let*' x ':=' m 'in' k" := (bind m (fun x => k))
  (at level 10, x name, m at level 100, k at level 200).

#[global] Instance exn_eq_dec : EqDecision exn.
Proof. solve_decision. Defined.

(** [try: body except E: handler]: only the exception [E] is caught. *)
Definition try_except {A : Type} (body : result A) (E : exn) (handler : result A)
  : result A :=
  match body with
  | Ok a => Ok a
  | Raise e => if decide (e = E) then handler else Raise e
  end.

(** A [for] loop that accumulates a value and may raise in its body. *)
Fixpoint for_each {A S : Type} (xs : list A) (body : S -> A -> result S) (s : S)
  : result S :=
  match xs with
  | [] => Ok s
  | x :: xs' => let* s' := body s x in for_each xs' body s'
  end.

(* ===================================================================== *)
(** ** Characters and [str] methods *)
(* ===================================================================== *)

Definition code (c : ascii) : N := N_of_ascii c.

Definition in_range (lo hi c : ascii) : bool :=
  ((code lo <=? code c) && (code c <=? code hi))%N.

Definition is_lower (c : ascii) : bool := in_range "a" "z" c.
Definition is_upper (c : ascii) : bool := in_range "A" "Z" c.
Definition is_letter (c : ascii) : bool := is_lower c || is_upper c.
Definition is_digit (c : ascii) : bool := in_range "0" "9" c.
Definition is_alnum (c : ascii) : bool := is_letter c || is_digit c.

(** [\w] of the [re] module. *)
Definition is_word (c : ascii) : bool := is_alnum c || Ascii.eqb c "_".

Definition lower_char (c : ascii) : ascii :=
  if is_upper c then ascii_of_N (code c + 32) else c.

Fixpoint all_chars (p : ascii -> bool) (s : string) : bool :=
  match s with
  | EmptyString => true
  | String c s' => p c && all_chars p s'
  end.

Fixpoint any_char (p : ascii -> bool) (s : string) : bool :=
  match s with
  | EmptyString => false
  | String c s' => p c || any_char p s'
  end.

Definition nonempty (s : string) : bool :=
  match s with EmptyString => false | String _ _ => true end.

(** [s.isalpha()], [s.isalnum()]: false on the empty string. *)
Definition isalpha (s : string) : bool := nonempty s && all_chars is_letter s.
Definition isalnum (s : string) : bool := nonempty s && all_chars is_alnum s.

(** [s.lower()] *)
Fixpoint lower (s : string) : string :=
  match s with
  | EmptyString => EmptyString
  | String c s' => String (lower_char c) (lower s')
  end.

(** [c in s] for a one-character [c]. *)
Definition has_char (c : ascii) (s : string) : bool := any_char (Ascii.eqb c) s.

(** [sub in s] *)
Fixpoint contains (sub s : string) : bool :=
  String.prefix sub s ||
  match s with
  | EmptyString => false
  | String _ s' => contains sub s'
  end.

(** [s.endswith(suffix)] *)
Fixpoint endswith (s suffix : string) : bool :=
  String.eqb s suffix ||
  match s with
  | EmptyString => false
  | String _ s' => endswith s' suffix
  end.

(** [s[-1]]: the last character, [IndexError] on the empty string. *)
Fixpoint last_char (s : string) : result ascii :=
  match s with
  | EmptyString => Raise IndexError
  | String c EmptyString => Ok c
  | String _ s' => last_char s'
  end.

(** [s.split(sep)] for a one-character separator: empty pieces are kept and
    the result is never empty. *)
Fixpoint split (sep : ascii) (s : string) : list string :=
  match s with
  | EmptyString => [EmptyString]
  | String c s' =>
      if Ascii.eqb c sep then EmptyString :: split sep s'
      else match split sep s' with
           | [] => [String c EmptyString]
           | piece :: pieces => String c piece :: pieces
           end
  end.

Fixpoint lstrip (ch : ascii) (s : string) : string :=
  match s with
  | EmptyString => EmptyString
  | String c s' => if Ascii.eqb c ch then lstrip ch s' else s
  end.

Fixpoint rstrip (ch : ascii) (s : string) : string :=
  match s with
  | EmptyString => EmptyString
  | String c s' =>
      match rstrip ch s' with
      | EmptyString => if Ascii.eqb c ch then EmptyString else String c EmptyString
      | r => String c r
      end
  end.

(** [s.strip(ch)] for a one-character set. *)
Definition strip (ch : ascii) (s : string) : string := rstrip ch (lstrip ch s).

(* ===================================================================== *)
(** ** The fragment of [re] used by the program *)
(* ===================================================================== *)

(** Items of a bracket expression, and the escapes used as single
    characters. *)
Inductive item : Type :=
| Lit (c : ascii)              (* a literal, also [\.], [\-], [\/] *)
| Rng (lo hi : ascii)          (* lo-hi *)
| AnyDigit.                    (* \d *)

Inductive cls : Type :=
| OneOf (items : list item)    (* [...]  *)
| NoneOf (items : list item).  (* [^...] *)

Inductive atom : Type :=
| One (c : cls)                (* c   *)
| Plus (c : cls)               (* c+  *)
| Star (c : cls)               (* c*  *)
| NotBoundary.                 (* \B  *)

(** A pattern is a sequence of atoms; the single group of the program (a
    slash, then alphanumerics) carries no quantifier and is its two atoms. *)
Definition regex : Type := list atom.

Definition item_mem (i : item) (x : ascii) : bool :=
  match i with
  | Lit c => Ascii.eqb x c
  | Rng lo hi => in_range lo hi x
  | AnyDigit => is_digit x
  end.

Definition cls_mem (c : cls) (x : ascii) : bool :=
  match c with
  | OneOf items => existsb (fun i => item_mem i x) items
  | NoneOf items => negb (existsb (fun i => item_mem i x) items)
  end.

Definition word_at (o : option ascii) : bool :=
  match o with
  | Some c => is_word c
  | None => false
  end.

Definition first_char (s : string) : option ascii :=
  match s with
  | EmptyString => None
  | String c _ => Some c
  end.

(** Zero or more characters of [c], then the continuation [k]. *)
Fixpoint match_star (c : cls) (k : option ascii -> string -> bool)
    (prev : option ascii) (s : string) : bool :=
  k prev s ||
  match s with
  | EmptyString => false
  | String x s' => cls_mem c x && match_star c k (Some x) s'
  end.

(** Does some prefix of [s] match [p], [prev] being the character before? *)
Fixpoint match_here (p : regex) (prev : option ascii) (s : string) : bool :=
  match p with
  | [] => true
  | One c :: p' =>
      match s with
      | EmptyString => false
      | String x s' => cls_mem c x && match_here p' (Some x) s'
      end
  | Plus c :: p' =>
      match s with
      | EmptyString => false
      | String x s' => cls_mem c x && match_star c (match_here p') (Some x) s'
      end
  | Star c :: p' => match_star c (match_here p') prev s
  | NotBoundary :: p' =>
      Bool.eqb (word_at prev) (word_at (first_char s)) && match_here p' prev s
  end.

Fixpoint search_from (p : regex) (prev : option ascii) (s : string) : bool :=
  match_here p prev s ||
  match s with
  | EmptyString => false
  | String x s' => search_from p (Some x) s'
  end.

(** The truth value of [re.search(p, s)]. *)
Definition re_search (p : regex) (s : string) : bool := search_from p None s.

(** The patterns of the program, in the order of the source. *)

Definition letter : cls := OneOf [Rng "a" "z"; Rng "A" "Z"].
Definition alnum : cls := OneOf [Rng "a" "z"; Rng "A" "Z"; Rng "0" "9"].
Definition dot : cls := OneOf [Lit "."].
Definition hyphen : cls := OneOf [Lit "-"].

(** ["[^-a-zA-Z]"] *)
Definition re_not_letter_hyphen : regex :=
  [One (NoneOf [Lit "-"; Rng "a" "z"; Rng "A" "Z"])].

(** ["[a-zA-Z]+\-[a-zA-Z]+"] *)
Definition re_letters_hyphen_letters : regex :=
  [Plus letter; One hyphen; Plus letter].

(** ["[a-zA-Z]+\-\B"] *)
Definition re_letters_hyphen_end : regex :=
  [Plus letter; One hyphen; NotBoundary].

(** ["'[a-zA-z]+"]: the second range of the source ends at lower-case z. *)
Definition re_apostrophe : regex :=
  [One (OneOf [Lit "'"]); Plus (OneOf [Rng "a" "z"; Rng "A" "z"])].

(** The URL pattern: three runs of letters separated by dots, then the
    group of a slash and any number of alphanumerics. *)
Definition re_url : regex :=
  [Plus letter; One dot; Plus letter; One dot; Plus letter;
   One (OneOf [Lit "/"]); Star alnum].

(** ["\d+\.\d+"] *)
Definition re_decimal : regex :=
  [Plus (OneOf [AnyDigit]); One dot; Plus (OneOf [AnyDigit])].

(** ["[a-zA-Z0-9]+"] *)
Definition re_alnum : regex := [Plus alnum].

(** ["[a-zA-Z]"] *)
Definition re_letter : regex := [One letter].

(* ===================================================================== *)
(** ** [statistics] and rounding *)
(* ===================================================================== *)

Definition count_of (x : Z) (data : list Z) : nat :=
  length (List.filter (Z.eqb x) data).

Definition max_count (data : list Z) : nat :=
  fold_right Nat.max 0%nat (map (fun x => count_of x data) data).

(** The values of highest frequency, in the order of the data. *)
Definition most_common (data : list Z) : list Z :=
  List.filter (fun x => Nat.eqb (count_of x data) (max_count data)) data.

(** [statistics.mode] (Python 3.8 and later): the most common value, and of
    several equally common values the one met first in the data, as the
    counter keeps the values in the order of their first occurrence and its
    maximum is the first of the largest counts; [StatisticsError] on no data
    only. *)
Definition mode (data : list Z) : result Z :=
  match most_common data with
  | v :: _ => Ok v
  | [] => Raise StatisticsError
  end.

Definition sum_list (data : list Z) : Z := fold_right Z.add 0 data.

(** [statistics.mean]: the exact quotient; [StatisticsError] on no data. *)
Definition mean (data : list Z) : result Q :=
  match data with
  | [] => Raise StatisticsError
  | _ => Ok (inject_Z (sum_list data) / inject_Z (Z.of_nat (length data)))%Q
  end.

(** [round(x)] and [int(round(x, 0))]: to the nearest integer, a tie going
    to the even neighbour. *)
Definition py_round (x : Q) : Z :=
  let f := Qfloor x in
  match (x - inject_Z f ?= 1 # 2)%Q with
  | Lt => f
  | Gt => f + 1
  | Eq => if Z.even f then f else f + 1
  end.

(** [round(math.sqrt(n))] for an integer [n >= 0]: a square root of an
    integer is never half way between two integers, so this is the integer
    nearest to the root. *)
Definition round_sqrt (n : Z) : Z :=
  let r := Z.sqrt n in
  if r * r + r <? n then r + 1 else r.

(** [xs[i]] *)
Definition getitem {A : Type} (xs : list A) (i : nat) : result A :=
  match nth_error xs i with
  | Some x => Ok x
  | None => Raise IndexError
  end.

(** [a / b] *)
Definition truediv (a b : Z) : result Q :=
  if b =? 0 then Raise ZeroDivisionError else Ok (inject_Z a / inject_Z b)%Q.

(* ===================================================================== *)
(** ** The syllable estimator *)
(* ===================================================================== *)

Definition vowels : string := "aeiouy".
Definition is_vowel (c : ascii) : bool := has_char c vowels.

(** The loop [for index in range(1, len(word))] of [syllables]; [prev] is
    [word[index - 1]] and [rest] is [word[index:]]. *)
Fixpoint vowel_loop (prev : ascii) (rest : string) (count : Z) : Z :=
  match rest with
  | EmptyString => count
  | String c rest' =>
      vowel_loop c rest'
        (if is_vowel c && negb (is_vowel prev) then count + 1 else count)
  end.

Definition syllables (word : string) : result Z :=
  let count := 0 in
  let word := lower word in
  match word with
  | EmptyString => Raise IndexError
  | String c0 rest =>
      let count := if is_vowel c0 then count + 1 else count in
      let count := vowel_loop c0 rest count in
      let count := if endswith word "e" then count - 1 else count in
      let count := if endswith word "le" then count + 1 else count in
      let count := if endswith word "sm" then count + 1 else count in
      let count := if endswith word "thm" then count + 1 else count in
      let count := if count =? 0 then count + 1 else count in
      Ok count
  end.

Section Estimator.

(** [d = cmudict.dict()]: a lower-case word to its pronunciations, each a
    list of phonemes. *)
Variable d : gmap string (list (list string)).

Definition d_getitem (key : string) : result (list (list string)) :=
  match d !! key with
  | Some phoneme_list => Ok phoneme_list
  | None => Raise KeyError
  end.

(** The two nested loops of [nsyl]: for each pronunciation, the number of
    phonemes whose last character is a digit. *)
Definition count_stressed (phoneme_set : list string) : result Z :=
  let* syl_count :=
    for_each phoneme_set
      (fun syl_count phoneme =>
         let* c := last_char phoneme in
         Ok (if is_digit c then (syl_count ++ [phoneme])%list else syl_count))
      [] in
  Ok (Z.of_nat (length syl_count)).

Definition syl_list_of (phoneme_list : list (list string)) : result (list Z) :=
  for_each phoneme_list
    (fun syl_list phoneme_set =>
       let* n := count_stressed phoneme_set in
       Ok (syl_list ++ [n])%list)
    [].

(** The branch [if word.isalpha()] of [nsyl]. *)
Definition nsyl_alpha (word : string) : result Z :=
  try_except
    (let* phoneme_list := d_getitem (lower word) in
     let* syl_list := syl_list_of phoneme_list in
     if String.eqb word "US" then Ok 2
     else if String.eqb word "us" then Ok 1
     else if String.eqb word "separate" then Ok 2
     else if (1 <? length syl_list)%nat then
       try_except (mode syl_list) StatisticsError
         (let* m := mean syl_list in Ok (py_round m))
     else getitem syl_list 0)
    KeyError
    (if String.eqb (lower word) "facebook" then Ok 2
     else if String.eqb (lower word) "thefacebook" then Ok 3
     else if String.eqb (lower word) "tumblr" then Ok 2
     else syllables word).

(** [nsyl]; [limit] is the number of nested calls the interpreter still
    allows. *)
Fixpoint nsyl (limit : nat) (word : string) : result Z :=
  match limit with
  | O => Raise RecursionError
  | S limit' =>
      if isalpha word then nsyl_alpha word
      else if has_char "-" word then
        if re_search re_not_letter_hyphen word then Ok 1
        else if re_search re_letters_hyphen_letters word then
          let split_word := split "-" word in
          for_each split_word
            (fun syl_count word =>
               let* word_syllables := nsyl limit' word in
               Ok (syl_count + word_syllables))
            0
        else if re_search re_letters_hyphen_end word then
          nsyl limit' (strip "-" word)
        else Ok 1
      else Ok 1
  end.

End Estimator.

(* ===================================================================== *)
(** ** Slices *)
(* ===================================================================== *)

(** A slice bound [k] on a sequence of length [n]: a negative bound counts
    from the end, and every bound is clipped to [0..n]. *)
Definition slice_bound (n k : Z) : Z :=
  if k <? 0 then Z.max (k + n) 0 else Z.min k n.

(** [xs[i:j]] *)
Definition slice {A : Type} (xs : list A) (i j : Z) : list A :=
  let n := Z.of_nat (length xs) in
  let lo := slice_bound n i in
  let hi := slice_bound n j in
  firstn (Z.to_nat (hi - lo)) (skipn (Z.to_nat lo) xs).

(** [" ".join(xs)] *)
Definition join_spaces (xs : list string) : string := String.concat " " xs.

(* ===================================================================== *)
(** ** Tokenizer filters and metrics *)
(* ===================================================================== *)

(** The condition of the comprehension in [get_words_list]. *)
Definition keep_word (word : string) : bool :=
  isalnum word
  || re_search re_apostrophe word
  || re_search re_url word
  || re_search re_decimal word
  || (has_char "-" word && re_search re_alnum word).

Section Metrics.

Variable d : gmap string (list (list string)).
(** The nesting of calls still allowed when a metric calls [nsyl]. *)
Variable limit : nat.
(** [nltk.word_tokenize], [nltk.sent_tokenize] (with the extra
    abbreviations) and [nltk.pos_tag]. *)
Variable word_tokenize : string -> list string.
Variable sent_tokenize : string -> list string.
Variable pos_tag : list string -> list (string * string).

Definition get_words_list (input_text : string) : list string :=
  List.filter keep_word (word_tokenize input_text).

Definition get_sentence_list (input_text : string) : list string :=
  List.filter (re_search re_letter) (sent_tokenize input_text).

Definition fres (input_text : string) : result Q :=
  let words_list := get_words_list input_text in
  let total_words := Z.of_nat (length words_list) in
  let sentence_list := get_sentence_list input_text in
  let total_sentences := Z.of_nat (length sentence_list) in
  let* total_syllables :=
    for_each words_list
      (fun total_syllables word =>
         let* n := nsyl d limit word in Ok (total_syllables + n))
      0 in
  let* avg_sentence_len := truediv total_words total_sentences in
  let* avg_syllables := truediv total_syllables total_words in
  Ok ((206835 # 1000) - (1015 # 1000) * avg_sentence_len
      - (846 # 10) * avg_syllables)%Q.

Definition ari (input_text : string) : result Q :=
  let words_list := get_words_list input_text in
  let total_words := Z.of_nat (length words_list) in
  let sentence_list := get_sentence_list input_text in
  let total_sentences := Z.of_nat (length sentence_list) in
  let total_chars :=
    fold_left (fun total_chars word =>
                 total_chars + Z.of_nat (String.length word))
      words_list 0 in
  let* avg_sentence_len := truediv total_words total_sentences in
  let* avg_chars := truediv total_chars total_words in
  Ok ((471 # 100) * avg_chars + (5 # 10) * avg_sentence_len
      - (2143 # 100))%Q.

(** The loop counting the words of at least three syllables, shared by
    [smog] and [get_complex_words_count]. *)
Definition count_difficult (words_list : list string) : result Z :=
  for_each words_list
    (fun difficult_words word =>
       let* n := nsyl d limit word in
       Ok (if 3 <=? n then difficult_words + 1 else difficult_words))
    0.

(** The string [selection] of [smog]. *)
Definition smog_selection (sentence_list : list string) : string :=
  let total_sentences := Z.of_nat (length sentence_list) in
  let start := slice sentence_list 0 9 in
  let middle :=
    slice sentence_list
      (Qfloor (inject_Z total_sentences / 2 - 5))
      (py_round (inject_Z total_sentences / 2 - 5)) in
  let end_ :=
    slice sentence_list
      (Z.of_nat (length sentence_list) - 10)
      (Z.of_nat (length sentence_list)) in
  join_spaces start ++ join_spaces middle ++ join_spaces end_.

Definition smog (input_text : string) : result Z :=
  let sentence_list := get_sentence_list input_text in
  let selection := smog_selection sentence_list in
  let words_list := get_words_list selection in
  let* difficult_words := count_difficult words_list in
  let nearest_square := round_sqrt difficult_words in
  Ok (nearest_square + 3).

(** The condition of the loop of [gfi]. [nsyl] is evaluated as often as
    the source does, left to right, with the short cuts of [and]. *)
Definition gfi_is_complex (current_word current_tag : string) : result bool :=
  let* word_syllables := nsyl d limit current_word in
  let* n1 := nsyl d limit current_word in
  if (3 <=? n1) && negb (contains "NNP" current_tag)
     && negb (has_char "-" current_word)
  then
    let* n2 := nsyl d limit current_word in
    let exception_ :=
      (n2 =? 3) && contains "VB" current_tag
      && (endswith current_word "es" || endswith current_word "ed"
          || endswith current_word "ing") in
    Ok (Bool.eqb exception_ false)
  else Ok false.

Definition gfi (input_text : string) : result Q :=
  let words_list := get_words_list input_text in
  let total_words := Z.of_nat (length words_list) in
  let sentence_list := get_sentence_list input_text in
  let total_sentences := Z.of_nat (length sentence_list) in
  let tagged_words_list := pos_tag words_list in
  let* complex_words :=
    for_each tagged_words_list
      (fun complex_words item =>
         let* c := gfi_is_complex (fst item) (snd item) in
         Ok (if c then complex_words + 1 else complex_words))
      0 in
  let* avg_sentence_len := truediv total_words total_sentences in
  let* percentage_complex_words := truediv complex_words total_words in
  Ok ((avg_sentence_len + percentage_complex_words) * (4 # 10))%Q.

Definition get_complex_words_count (input_text : string) : result Z :=
  count_difficult (get_words_list input_text).

Definition get_word_count (input_text : string) : Z :=
  Z.of_nat (length (get_words_list input_text)).

Definition get_sentence_count (input_text : string) : Z :=
  Z.of_nat (length (get_sentence_list input_text)).

End Metrics.

(* ===================================================================== *)
(** ** Age converters *)
(* ===================================================================== *)

(** What a converter returns: a string literal on the clamped sides, the
    interpolated number inside the table. *)
Inductive value : Type :=
| Str (s : string)
| Num (q : Q).

Fixpoint insert_point (p : Q * Q) (pts : list (Q * Q)) : list (Q * Q) :=
  match pts with
  | [] => [p]
  | q :: pts' =>
      if Qle_bool (fst p) (fst q) then p :: pts else q :: insert_point p pts'
  end.

Definition sort_points (pts : list (Q * Q)) : list (Q * Q) :=
  fold_right insert_point [] pts.

Fixpoint interpolate (pts : list (Q * Q)) (v : Q) : result Q :=
  match pts with
  | (x_lo, y_lo) :: (((x_hi, y_hi) :: _) as rest) =>
      if Qle_bool x_lo v && Qle_bool v x_hi
      then Ok ((y_hi - y_lo) / (x_hi - x_lo) * (v - x_lo) + y_lo)%Q
      else interpolate rest v
  | _ => Raise ValueError
  end.

(** [interp1d(xs, ys)]: linear interpolation through the points sorted by
    abscissa; [ValueError] outside the table. *)
Definition interp1d (xs ys : list Z) (v : Q) : result Q :=
  interpolate (sort_points (combine (map inject_Z xs) (map inject_Z ys))) v.

Definition range (lo hi : Z) : list Z :=
  map (fun i => lo + Z.of_nat i) (seq 0 (Z.to_nat (hi - lo))).

Definition convert_fres (fres_value : Q) : result value :=
  let x := [10; 11; 12; 13; 15; 18; 24] in
  let y := [100; 90; 80; 70; 60; 50; 30] in
  let ipol := interp1d y x in
  if Qlt_le_dec fres_value 30 then Ok (Str "24")
  else if Qlt_le_dec 100 fres_value then Ok (Str "10")
  else let* a := ipol fres_value in Ok (Num a).

Definition convert_ari (ari_value : Q) : result value :=
  let x := [5; 6; 7; 9; 10; 11; 12; 13; 14; 15; 16; 17; 18; 24] in
  let y := range 1 15 in
  let ipol := interp1d y x in
  if Qlt_le_dec 14 ari_value then Ok (Str "24")
  else if Qlt_le_dec ari_value 1 then Ok (Str "5")
  else let* a := ipol ari_value in Ok (Num a).

Definition convert_gfi (gfi_value : Q) : result value :=
  let x := [11; 12; 13; 14; 15; 16; 17; 19; 20; 21; 23; 24] in
  let y := range 6 18 in
  let ipol := interp1d y x in
  if Qlt_le_dec 17 gfi_value then Ok (Str "24")
  else if Qlt_le_dec gfi_value 6 then Ok (Str "11")
  else let* a := ipol gfi_value in Ok (Num a).

(* ===================================================================== *)
(** ** Definitions used to state the properties *)
(* ===================================================================== *)

(** The characters that the pattern ["[^-a-zA-Z]"] does not match. *)
Definition letter_or_hyphen (c : ascii) : bool := is_letter c || Ascii.eqb c "-".

(** A letter directly followed by two hyphens. *)
Definition re_letter_two_hyphens : regex := [One letter; One hyphen; One hyphen].

(** [s] is empty or begins with a letter. *)
Definition letter_first (s : string) : Prop :=
  match s with
  | EmptyString => True
  | String c _ => is_letter c = true
  end.

(** A phoneme that bears a syllable: its last character is a digit. *)
Definition stressed (phoneme : string) : bool :=
  match last_char phoneme with
  | Ok c => is_digit c
  | Raise _ => false
  end.

(** The syllable count of one pronunciation. *)
Definition stress_marks (phoneme_set : list string) : Z :=
  Z.of_nat (length (List.filter stressed phoneme_set)).

(** A pronunciation with no empty phoneme and at least one stressed one;
    an entry with at least one pronunciation, all of them such; a dictionary
    whose entries are all such. *)
Definition sound_pronunciation (phoneme_set : list string) : bool :=
  forallb nonempty phoneme_set && existsb stressed phoneme_set.

Definition sound_entry (phoneme_list : list (list string)) : bool :=
  match phoneme_list with
  | [] => false
  | _ => forallb sound_pronunciation phoneme_list
  end.

Definition sound_dictionary (d : gmap string (list (list string))) : Prop :=
  map_Forall (fun _ phoneme_list => sound_entry phoneme_list = true) d.

(** [m] is the unique mode of [data]: it occurs, and strictly more often
    than every other value that occurs. *)
Definition unique_mode (m : Z) (data : list Z) : Prop :=
  In m data /\
  forall x, In x data -> x <> m -> (count_of x data < count_of m data)%nat.

(** Position [i] of [s] holds a vowel. *)
Definition vowel_at (s : string) (i : nat) : bool :=
  match String.get i s with
  | Some c => is_vowel c
  | None => false
  end.

(** Position [i] starts a run of vowels: it holds a vowel, and it is the
    first position or the position before holds no vowel. *)
Definition is_onset (s : string) (i : nat) : bool :=
  vowel_at s i && (Nat.eqb i 0 || negb (vowel_at s (i - 1))).

(** The number of vowel-run onsets of [s]. *)
Definition vowel_onsets (s : string) : Z :=
  Z.of_nat (length (List.filter (is_onset s) (seq 0 (String.length s)))).

(** 1 when [s] ends with [suffix], else 0. *)
Definition suffix_rule (s suffix : string) : Z :=
  if endswith s suffix then 1 else 0.

(** The overrides of [nsyl]: the named entities looked for when the word is
    not in the dictionary, and the irregular words looked for when it is. *)
Definition named_entity (word : string) : option Z :=
  if String.eqb (lower word) "facebook" then Some 2
  else if String.eqb (lower word) "thefacebook" then Some 3
  else if String.eqb (lower word) "tumblr" then Some 2
  else None.

Definition irregular (word : string) : option Z :=
  if String.eqb word "US" then Some 2
  else if String.eqb word "us" then Some 1
  else if String.eqb word "separate" then Some 2
  else None.

(** The sum of counts, the first exception among them being raised. *)
Definition sum_results (counts : list (result Z)) : result Z :=
  for_each counts (fun total r => let* n := r in Ok (total + n)) 0.

(** A complex word of the Gunning fog index, as the specification words
    it, for a word of [syllable_count] syllables tagged [tag]. *)
Definition complex_word (syllable_count : Z) (word tag : string) : bool :=
  (3 <=? syllable_count)
  && negb (contains "NNP" tag)
  && negb (has_char "-" word)
  && negb ((syllable_count =? 3) && contains "VB" tag
           && (endswith word "es" || endswith word "ed" || endswith word "ing")).

(** [a == b] on the values the converters return: a [str] never equals a
    number. *)
Definition value_eq (a b : value) : bool :=
  match a, b with
  | Str s, Str t => String.eqb s t
  | Num p, Num q => Qeq_bool p q
  | _, _ => false
  end.

(** Plain stand-ins for the collaborators, enough to run the metrics on
    sample texts: a sentence ends at a space that follows a full stop; tokens
    are separated by spaces, and a full stop ending a token is a token of its
    own; every word is tagged as a common noun. *)
Fixpoint sentences_of (prev : ascii) (s : string) : list string :=
  match s with
  | EmptyString => [EmptyString]
  | String c s' =>
      if Ascii.eqb c " " && Ascii.eqb prev "." then EmptyString :: sentences_of c s'
      else match sentences_of c s' with
           | [] => [String c EmptyString]
           | sentence :: rest => String c sentence :: rest
           end
  end.

Definition plain_sent_tokenize (text : string) : list string :=
  List.filter nonempty (sentences_of " " text).

Definition detach_stop (token : string) : list string :=
  if endswith token "." && (1 <? String.length token)%nat
  then [String.substring 0 (String.length token - 1) token; "."]
  else [token].

Definition plain_word_tokenize (text : string) : list string :=
  flat_map detach_stop (List.filter nonempty (split " " text)).

Definition noun_tag (words_list : list string) : list (string * string) :=
  map (fun word => (word, "NN")) words_list.

(** A few entries in the format of the CMU pronouncing dictionary. *)
Definition cmu_sample : gmap string (list (list string)) :=
  {[ "well" := [["W"; "EH1"; "L"]];
     "known" := [["N"; "OW1"; "N"]];
     "go" := [["G"; "OW1"]];
     "day" := [["D"; "EY1"]];
     "beautiful" := [["B"; "Y"; "UW1"; "T"; "AH0"; "F"; "AH0"; "L"]];
     "either" := [["IY1"; "DH"; "ER0"]; ["AY1"; "DH"; "ER0"]];
     "family" := [["F"; "AE1"; "M"; "AH0"; "L"; "IY0"]; ["F"; "AE1"; "M"; "L"; "IY0"]];
     "caramel" := [["K"; "EH1"; "R"; "AH0"; "M"; "AH0"; "L"];
                   ["K"; "AA1"; "R"; "M"; "AH0"; "L"];
                   ["K"; "AA1"; "R"; "M"; "EH2"; "L"]] ]}.

(** A dictionary with one entry, whose pronunciation has no stressed
    phoneme. *)
Definition unstressed_sample : gmap string (list (list string)) :=
  {[ "hmm" := [["HH"; "M"]] ]}.

(** Twenty sentences; the tenth holds the only word of three syllables. *)
Definition twenty_sentences : string :=
  "Go. Go. Go. Go. Go. Go. Go. Go. Go. Beautiful day. Go. Go. Go. Go. Go. Go. Go. Go. Go. Go.".

(** The sample of SMOG as the specification words it: the first ten
    sentences, the middle slice, the last ten sentences; and the score
    computed from it. *)
Definition smog_selection_first_ten (sentence_list : list string) : string :=
  let n := Z.of_nat (length sentence_list) in
  join_spaces (firstn 10 sentence_list)
  ++ join_spaces (slice sentence_list (Qfloor (inject_Z n / 2 - 5))
                                      (py_round (inject_Z n / 2 - 5)))
  ++ join_spaces (skipn (length sentence_list - 10) sentence_list).

Definition smog_first_ten d limit
    (word_tokenize sent_tokenize : string -> list string) (input_text : string)
  : result Z :=
  let sample := smog_selection_first_ten (get_sentence_list sent_tokenize input_text) in
  let* difficult := count_difficult d limit (get_words_list word_tokenize sample) in
  Ok (round_sqrt difficult + 3).

Definition six_sentences : list string :=
  ["One."; "Two."; "Three."; "Four."; "Five."; "Six."].


(** The syllable counts under [cmu_sample]. *)
Definition sample_count (word : string) : Z :=
  match nsyl cmu_sample 1000 word with
  | Ok n => n
  | Raise _ => 0
  end.

(** The dictionary keys that a call of [nsyl] on [word] looks up before it
    returns: the lower-cased word when it is alphabetic; for a word of
    letters and hyphens with a hyphen between two letters, its alphabetic
    pieces; for another word of letters and hyphens that the pattern of the
    trailing hyphen matches, the word stripped of the hyphens at its ends,
    when that is alphabetic. *)
Definition lookups (word : string) : list string :=
  if isalpha word then [lower word]
  else if all_chars letter_or_hyphen word then
    if re_search re_letters_hyphen_letters word then
      map lower (List.filter isalpha (split "-" word))
    else if re_search re_letters_hyphen_end word && isalpha (strip "-" word) then
      [lower (strip "-" word)]
    else []
  else [].

(** A word of letters and hyphens, with no hyphen between two letters, that
    still has a hyphen when the hyphens at its ends are stripped. *)
Definition endless (word : string) : bool :=
  all_chars letter_or_hyphen word
  && negb (re_search re_letters_hyphen_letters word)
  && has_char "-" (strip "-" word).

(** A pattern without [\B]. *)
Definition boundary_free (p : regex) : bool :=
  forallb (fun a => match a with NotBoundary => false | _ => true end) p.

(** A dictionary with sound entries and the unstressed one. *)
Definition mixed_sample : gmap string (list (list string)) :=
  <[ "hmm" := [["HH"; "M"]] ]> cmu_sample.



(** *** Definitions for the further properties *)

(** The lengths of the words, as [ari] adds them. *)
Definition total_length (words_list : list string) : Z :=
  sum_list (map (fun word => Z.of_nat (String.length word)) words_list).

(** A text with a zero denominator: no word or no sentence. *)
Definition no_word_or_sentence (total_words total_sentences : Z) : bool :=
  (total_sentences =? 0) || (total_words =? 0).

(** A letter directly followed by a hyphen; a hyphen directly followed by a
    letter. *)
Fixpoint letter_then_hyphen (s : string) : bool :=
  match s with
  | String a ((String b _) as rest) =>
      (is_letter a && Ascii.eqb b "-") || letter_then_hyphen rest
  | _ => false
  end.

Fixpoint hyphen_then_letter (s : string) : bool :=
  match s with
  | String a ((String b _) as rest) =>
      (Ascii.eqb a "-" && is_letter b) || hyphen_then_letter rest
  | _ => false
  end.

(** A table for [interpolate]: abscissas strictly increasing, ordinates
    between [lo] and [hi]. *)
Fixpoint increasing (pts : list (Q * Q)) : bool :=
  match pts with
  | p :: ((q :: _) as rest) =>
      negb (Qle_bool (fst q) (fst p)) && increasing rest
  | _ => true
  end.

Definition ordinates_within (lo hi : Q) (pts : list (Q * Q)) : bool :=
  forallb (fun p => Qle_bool lo (snd p) && Qle_bool (snd p) hi) pts.

(** The points a converter interpolates, sorted as [interp1d] sorts them. *)
Definition table (xs ys : list Z) : list (Q * Q) :=
  sort_points (combine (map inject_Z xs) (map inject_Z ys)).

(** The converter returns the number [age], up to the equality of
    rationals. *)
Definition returns_age (r : result value) (age : Q) : bool :=
  match r with
  | Ok (Num a) => Qeq_bool a age
  | _ => false
  end.

(** [a] before [b] in the direction [up] (ascending) or its opposite. *)
Definition le_dir (up : bool) (a b : Q) : Prop :=
  if up then (a <= b)%Q else (b <= a)%Q.

Definition le_dir_bool (up : bool) (a b : Q) : bool :=
  if up then Qle_bool a b else Qle_bool b a.

(** The ordinates of a table go one way. *)
Fixpoint ordered (up : bool) (pts : list (Q * Q)) : bool :=
  match pts with
  | p :: ((q :: _) as rest) => le_dir_bool up (snd p) (snd q) && ordered up rest
  | _ => true
  end.

(** A character of the ASCII range; one that is neither a letter nor a
    hyphen. *)
Definition is_ascii (c : ascii) : bool := (code c <? 128)%N.

Definition other_ascii (c : ascii) : bool :=
  is_ascii c && negb (letter_or_hyphen c).

(* ===================================================================== *)
(** * Properties *)
(* ===================================================================== *)

(** ** Unfolding [nsyl], and the character classes *)

Lemma nsyl_eq d limit word :
  nsyl d (S limit) word =
  if isalpha word then nsyl_alpha d word
  else if has_char "-" word then
    if re_search re_not_letter_hyphen word then Ok 1
    else if re_search re_letters_hyphen_letters word then
      for_each (split "-" word)
        (fun syl_count word =>
           let* word_syllables := nsyl d limit word in
           Ok (syl_count + word_syllables))
        0
    else if re_search re_letters_hyphen_end word then
      nsyl d limit (strip "-" word)
    else Ok 1
  else Ok 1.
Proof. reflexivity. Qed.

Lemma nsyl_double_hyphen d limit : nsyl d limit "a--b" = Raise RecursionError.
Proof.
  induction limit as [|limit IH]; [reflexivity|].
  rewrite nsyl_eq.
  change (isalpha "a--b") with false.
  change (has_char "-" "a--b") with true.
  change (re_search re_not_letter_hyphen "a--b") with false. 
  change (re_search re_letters_hyphen_letters "a--b") with false.
  change (re_search re_letters_hyphen_end "a--b") with true.
  change (strip "-" "a--b") with "a--b". cbv iota. exact IH.
Qed.

Lemma cls_mem_letter c : cls_mem letter c = is_letter c.
Proof. unfold cls_mem, letter, is_letter, is_lower, is_upper; simpl. now rewrite orb_false_r. Qed.

Lemma cls_mem_hyphen c : cls_mem hyphen c = Ascii.eqb c "-".
Proof. unfold cls_mem, hyphen; simpl. now rewrite orb_false_r. Qed.

Lemma hyphen_not_letter c : Ascii.eqb c "-" = true -> is_letter c = false.
Proof. intros H. apply Ascii.eqb_eq in H. now subst. Qed.

Lemma search_from_cons p prev c s :
  search_from p prev (String c s) = false ->
  match_here p prev (String c s) = false /\ search_from p (Some c) s = false.
Proof. simpl. intros H. now apply orb_false_iff in H. Qed.

Lemma cls_mem_not_letter_hyphen c :
  cls_mem (NoneOf [Lit "-"; Rng "a" "z"; Rng "A" "Z"]) c = negb (letter_or_hyphen c).
Proof.
  unfold cls_mem, letter_or_hyphen, is_letter, is_lower, is_upper.
  cbn [existsb item_mem]. rewrite orb_false_r. f_equal. apply orb_comm.
Qed.

Lemma not_letter_hyphen_search prev s :
  search_from re_not_letter_hyphen prev s = negb (all_chars letter_or_hyphen s).
Proof.
  revert prev. induction s as [|c s IH]; intros prev; [reflexivity|].
  cbn [search_from all_chars]. rewrite IH, negb_andb. f_equal.
  unfold re_not_letter_hyphen. cbn [match_here].
  now rewrite cls_mem_not_letter_hyphen, andb_true_r.
Qed.

Lemma all_letters_no_hyphen s :
  all_chars is_letter s = true -> has_char "-" s = false.
Proof.
  unfold has_char.
  induction s as [|c s IH]; [reflexivity|]. cbn [all_chars any_char].
  intros [Hc Hs]%andb_true_iff.
  rewrite (IH Hs), orb_false_r.
  destruct (Ascii.eqb "-" c) eqn:E; [|reflexivity].
  apply Ascii.eqb_eq in E. subst c. discriminate.
Qed.

Lemma nsyl_no_hyphen d limit word :
  has_char "-" word = false ->
  nsyl d (S limit) word = if isalpha word then nsyl_alpha d word else Ok 1.
Proof. intros H. rewrite nsyl_eq, H. reflexivity. Qed.

(** *** Stripping hyphens *)

Lemma rstrip_letters_cons c s :
  is_letter c = true ->
  all_chars is_letter (rstrip "-" s) = true ->
  all_chars is_letter (rstrip "-" (String c s)) = true.
Proof.
  intros Hc Hs. simpl. destruct (rstrip "-" s) as [|r0 r].
  - destruct (Ascii.eqb c "-"); simpl; [reflexivity| now rewrite Hc].
  - cbn [all_chars]. now rewrite Hc.
Qed.

Lemma match_star_skip c k prev s : k prev s = true -> match_star c k prev s = true.
Proof. intros H. destruct s; cbn [match_star]; now rewrite H. Qed.

Lemma letters_hyphen_letters_here prev x y s :
  is_letter x = true -> is_letter y = true ->
  match_here re_letters_hyphen_letters prev (String x (String "-" (String y s))) = true.
Proof.
  intros Hx Hy. unfold re_letters_hyphen_letters.
  cbn [match_here]. rewrite cls_mem_letter, Hx. cbn [andb].
  apply match_star_skip. cbn [match_here].
  rewrite cls_mem_letter, Hy. cbn [andb].
  change (cls_mem hyphen "-") with true. cbn [andb].
  now apply match_star_skip.
Qed.

Lemma letter_two_hyphens_here prev x s :
  is_letter x = true ->
  match_here re_letter_two_hyphens prev (String x (String "-" (String "-" s))) = true.
Proof.
  intros Hx. unfold re_letter_two_hyphens.
  cbn [match_here]. rewrite cls_mem_letter, cls_mem_hyphen, Hx. reflexivity.
Qed.

Lemma rstrip_letters s : forall prev,
  all_chars letter_or_hyphen s = true ->
  search_from re_letters_hyphen_letters prev s = false ->
  search_from re_letter_two_hyphens prev s = false ->
  letter_first s ->
  all_chars is_letter (rstrip "-" s) = true.
Proof.
  induction s as [|c t IH]; intros prev Hlh H2 H3 Hc; [reflexivity|].
  cbn [letter_first] in Hc.
  apply search_from_cons in H2 as [H2 H2'], H3 as [H3 H3'].
  cbn [all_chars] in Hlh. apply andb_true_iff in Hlh as [_ Hlh].
  apply rstrip_letters_cons; [exact Hc|].
  destruct t as [|c2 t2]; [reflexivity|].
  destruct (is_letter c2) eqn:E2.
  - apply (IH (Some c)); auto.
  - assert (c2 = "-"%char) as ->.
    { cbn [all_chars] in Hlh. apply andb_true_iff in Hlh as [Hc2 _].
      unfold letter_or_hyphen in Hc2. rewrite E2 in Hc2. now apply Ascii.eqb_eq. }
    destruct t2 as [|c3 t3]; [reflexivity|]. exfalso.
    destruct (is_letter c3) eqn:E3.
    + now rewrite letters_hyphen_letters_here in H2.
    + assert (c3 = "-"%char) as ->.
      { cbn [all_chars] in Hlh. apply andb_true_iff in Hlh as [_ Hlh].
        apply andb_true_iff in Hlh as [Hc3 _].
        unfold letter_or_hyphen in Hc3. rewrite E3 in Hc3. now apply Ascii.eqb_eq. }
      now rewrite letter_two_hyphens_here in H3.
Qed.

Lemma lstrip_suffix s : forall prev,
  all_chars letter_or_hyphen s = true ->
  search_from re_letters_hyphen_letters prev s = false ->
  search_from re_letter_two_hyphens prev s = false ->
  exists prev',
    all_chars letter_or_hyphen (lstrip "-" s) = true /\
    search_from re_letters_hyphen_letters prev' (lstrip "-" s) = false /\
    search_from re_letter_two_hyphens prev' (lstrip "-" s) = false /\
    letter_first (lstrip "-" s).
Proof.
  induction s as [|c t IH]; intros prev Hlh H2 H3.
  - exists prev. repeat split; assumption.
  - cbn [lstrip]. destruct (Ascii.eqb c "-") eqn:E.
    + apply search_from_cons in H2 as [_ H2], H3 as [_ H3].
      cbn [all_chars] in Hlh. apply andb_true_iff in Hlh as [_ Hlh].
      exact (IH (Some c) Hlh H2 H3).
    + exists prev. repeat split; try assumption.
      cbn [all_chars] in Hlh. apply andb_true_iff in Hlh as [Hc _].
      unfold letter_or_hyphen in Hc. rewrite E, orb_false_r in Hc. exact Hc.
Qed.

Lemma strip_letters s :
  all_chars letter_or_hyphen s = true ->
  re_search re_letters_hyphen_letters s = false ->
  re_search re_letter_two_hyphens s = false ->
  all_chars is_letter (strip "-" s) = true.
Proof.
  intros Hlh H2 H3.
  destruct (lstrip_suffix s None Hlh H2 H3) as (prev & A & B & C & D).
  exact (rstrip_letters _ prev A B C D).
Qed.

(** *** Dictionary counts *)

Lemma last_char_nonempty s : nonempty s = true -> exists c, last_char s = Ok c.
Proof.
  induction s as [|c s IH]; [discriminate|]. intros _.
  destruct s as [|c' s']; [now exists c|].
  destruct (IH eq_refl) as [x Hx]. exists x. exact Hx.
Qed.

Lemma stressed_loop phoneme_set : forall acc : list string,
  forallb nonempty phoneme_set = true ->
  for_each phoneme_set
    (fun syl_count phoneme =>
       let* c := last_char phoneme in
       Ok (if is_digit c then (syl_count ++ [phoneme])%list else syl_count))
    acc
  = Ok (acc ++ List.filter stressed phoneme_set)%list.
Proof.
  induction phoneme_set as [|ph rest IH]; intros acc Hne.
  - cbn. now rewrite app_nil_r.
  - cbn [forallb] in Hne. apply andb_true_iff in Hne as [Hph Hrest].
    destruct (last_char_nonempty ph Hph) as [c Hc].
    cbn [for_each List.filter]. unfold stressed at 1. rewrite Hc. cbn [bind].
    rewrite (IH _ Hrest). destruct (is_digit c); [|reflexivity].
    now rewrite <- app_assoc.
Qed.

Lemma count_stressed_marks phoneme_set :
  forallb nonempty phoneme_set = true ->
  count_stressed phoneme_set = Ok (stress_marks phoneme_set).
Proof.
  intros H. unfold count_stressed. rewrite (stressed_loop _ [] H). reflexivity.
Qed.

Lemma sound_pronunciation_marks phoneme_set :
  sound_pronunciation phoneme_set = true ->
  count_stressed phoneme_set = Ok (stress_marks phoneme_set) /\
  1 <= stress_marks phoneme_set.
Proof.
  intros [Hne Hex]%andb_true_iff. split; [now apply count_stressed_marks|].
  unfold stress_marks. apply existsb_exists in Hex as (ph & Hin & Hph).
  assert (In ph (List.filter stressed phoneme_set)) as Hf by (apply filter_In; auto).
  destruct (List.filter stressed phoneme_set); [contradiction|cbn [length]; lia].
Qed.

Lemma syl_list_loop phoneme_list : forall acc : list Z,
  forallb sound_pronunciation phoneme_list = true ->
  for_each phoneme_list
    (fun syl_list phoneme_set =>
       let* n := count_stressed phoneme_set in Ok (syl_list ++ [n])%list)
    acc
  = Ok (acc ++ map stress_marks phoneme_list)%list.
Proof.
  induction phoneme_list as [|v rest IH]; intros acc H.
  - cbn. now rewrite app_nil_r.
  - cbn [forallb] in H. apply andb_true_iff in H as [Hv Hrest].
    destruct (sound_pronunciation_marks v Hv) as [E _].
    cbn [for_each map]. rewrite E. cbn [bind]. rewrite (IH _ Hrest).
    now rewrite <- app_assoc.
Qed.

Lemma syl_list_sound phoneme_list :
  forallb sound_pronunciation phoneme_list = true ->
  syl_list_of phoneme_list = Ok (map stress_marks phoneme_list) /\
  Forall (fun n => 1 <= n) (map stress_marks phoneme_list).
Proof.
  intros H. split; [exact (syl_list_loop _ [] H)|].
  apply List.Forall_forall. intros n (v & <- & Hin)%in_map_iff.
  rewrite forallb_forall in H. now apply sound_pronunciation_marks, H.
Qed.

Lemma syl_list_length phoneme_list : forall acc counts,
  for_each phoneme_list
    (fun syl_list phoneme_set =>
       let* n := count_stressed phoneme_set in Ok (syl_list ++ [n])%list)
    acc = Ok counts ->
  length counts = (length acc + length phoneme_list)%nat.
Proof.
  induction phoneme_list as [|v rest IH]; intros acc counts H.
  - cbn in H. injection H as <-. cbn. lia.
  - cbn [for_each] in H. destruct (count_stressed v) as [n|e]; [|discriminate].
    cbn [bind] in H. apply IH in H. rewrite H, length_app. cbn. lia.
Qed.

(** *** The mode *)

Lemma fold_max_ge (f : Z -> nat) data x :
  In x data -> (f x <= fold_right Nat.max 0%nat (map f data))%nat.
Proof.
  induction data as [|y ys IH]; [contradiction|].
  cbn [map fold_right]. intros [->|Hin]; [lia|].
  specialize (IH Hin). lia.
Qed.

Lemma fold_max_attained (f : Z -> nat) data :
  data <> [] -> exists x, In x data /\ f x = fold_right Nat.max 0%nat (map f data).
Proof.
  induction data as [|y ys IH]; intros Hne; [contradiction|].
  cbn [map fold_right]. destruct ys as [|z zs].
  - exists y. cbn. split; [auto|lia].
  - destruct (IH ltac:(discriminate)) as (x & Hin & Hx).
    destruct (Nat.max_spec (f y) (fold_right Nat.max 0%nat (map f (z :: zs))))
      as [[_ ->]|[_ ->]].
    + exists x. split; [now right|exact Hx].
    + exists y. split; [now left|reflexivity].
Qed.

Lemma max_count_ge data x : In x data -> (count_of x data <= max_count data)%nat.
Proof. apply (fold_max_ge (fun x => count_of x data)). Qed.

Lemma max_count_attained data :
  data <> [] -> exists x, In x data /\ count_of x data = max_count data.
Proof. apply (fold_max_attained (fun x => count_of x data)). Qed.

Lemma in_most_common data v :
  In v (most_common data) <-> In v data /\ count_of v data = max_count data.
Proof.
  unfold most_common. rewrite filter_In.
  split; intros [H1 H2]; split; auto; now apply Nat.eqb_eq.
Qed.

Lemma mode_member data m : mode data = Ok m -> In m data.
Proof.
  unfold mode. intros H. destruct (most_common data) as [|v l] eqn:E; [discriminate|].
  injection H as <-.
  assert (In v (most_common data)) as Hv by (rewrite E; now left).
  now apply in_most_common in Hv.
Qed.

Lemma mode_most_common data m :
  mode data = Ok m -> count_of m data = max_count data.
Proof.
  unfold mode. intros H. destruct (most_common data) as [|v l] eqn:E; [discriminate|].
  injection H as <-.
  assert (In v (most_common data)) as Hv by (rewrite E; now left).
  now apply in_most_common in Hv.
Qed.

(** On data that is not empty [mode] returns a value: no tie makes it
    raise. *)
Lemma mode_returns data : data <> [] -> exists m, mode data = Ok m.
Proof.
  intros Hne. destruct (max_count_attained data Hne) as (x & Hx & Hmax).
  assert (In x (most_common data)) as Hin by (apply in_most_common; auto).
  unfold mode. destruct (most_common data) as [|v l]; [contradiction|].
  now exists v.
Qed.

Lemma mode_unique data m : unique_mode m data -> mode data = Ok m.
Proof.
  intros [Hin Hlt].
  assert (data <> []) as Hne by (intros ->; contradiction).
  destruct (mode_returns data Hne) as (v & Hv). rewrite Hv. f_equal.
  destruct (Z.eq_dec v m) as [|Hne']; [assumption|exfalso].
  pose proof (mode_member _ _ Hv) as Hvin.
  pose proof (mode_most_common _ _ Hv) as Hvmax.
  specialize (Hlt v Hvin Hne'). pose proof (max_count_ge data m Hin). lia.
Qed.

Lemma mode_error data e : mode data = Raise e -> e = StatisticsError.
Proof.
  unfold mode. destruct (most_common data) as [|v l]; congruence.
Qed.

(** *** Rounding and the mean *)

Lemma py_round_floor x : Qfloor x <= py_round x <= Qfloor x + 1.
Proof.
  unfold py_round. destruct (x - inject_Z (Qfloor x) ?= 1 # 2)%Q; [|lia|lia].
  destruct (Z.even (Qfloor x)); lia.
Qed.

Lemma py_round_nearest x : (Qabs (inject_Z (py_round x) - x) <= 1 # 2)%Q.
Proof.
  pose proof (Qfloor_le x) as Hlo. pose proof (Qlt_floor x) as Hhi.
  rewrite inject_Z_plus in Hhi. change (inject_Z 1) with 1%Q in Hhi.
  unfold py_round.
  destruct (x - inject_Z (Qfloor x) ?= 1 # 2)%Q eqn:E.
  - apply Qeq_alt in E.
    destruct (Z.even (Qfloor x)); [|rewrite inject_Z_plus; change (inject_Z 1) with 1%Q];
      apply Qabs_Qle_condition; split; lra.
  - apply Qlt_alt in E. apply Qabs_Qle_condition; split; lra.
  - apply Qgt_alt in E. rewrite inject_Z_plus. change (inject_Z 1) with 1%Q.
    apply Qabs_Qle_condition; split; lra.
Qed.

Lemma round_sqrt_nearest n :
  0 <= n ->
  let r := round_sqrt n in
  0 <= r /\ 4 * n < (2 * r + 1) * (2 * r + 1) /\
  (0 < r -> (2 * r - 1) * (2 * r - 1) < 4 * n).
Proof.
  intros Hn r. subst r. unfold round_sqrt.
  pose proof (Z.sqrt_spec n Hn) as [Hlo Hhi].
  pose proof (Z.sqrt_nonneg n) as Hr.
  set (r0 := Z.sqrt n) in *.
  destruct (Z.ltb_spec (r0 * r0 + r0) n); repeat split; nia.
Qed.

(** *** The heuristic estimator *)

Lemma get_append_length a b :
  String.get (String.length a) (a ++ b) = String.get 0 b.
Proof. induction a as [|c a IH]; [reflexivity|exact IH]. Qed.

Lemma get_append_succ a c b :
  String.get (S (String.length a)) (a ++ String c b) = String.get 0 b.
Proof. induction a as [|x a IH]; [reflexivity|exact IH]. Qed.

Lemma append_cons_assoc a c b : (a ++ String c EmptyString) ++ b = a ++ String c b.
Proof. induction a as [|x a IH]; [reflexivity|exact (f_equal (String x) IH)]. Qed.

Lemma length_append_one a c : String.length (a ++ String c EmptyString) = S (String.length a).
Proof. induction a as [|x a IH]; [reflexivity|exact (f_equal S IH)]. Qed.

Lemma vowel_loop_onsets rest : forall pre prev count,
  vowel_loop prev rest count =
  count + Z.of_nat (length (List.filter (is_onset (pre ++ String prev rest))
                              (seq (S (String.length pre)) (String.length rest)))).
Proof.
  induction rest as [|c rest IH]; intros pre prev count.
  - cbn. lia.
  - cbn [vowel_loop String.length seq List.filter].
    rewrite (IH (pre ++ String prev EmptyString) c).
    rewrite append_cons_assoc, length_append_one.
    assert (is_onset (pre ++ String prev (String c rest)) (S (String.length pre))
            = is_vowel c && negb (is_vowel prev)) as ->.
    { unfold is_onset, vowel_at. rewrite get_append_succ.
      cbn [Nat.eqb orb Nat.sub]. rewrite Nat.sub_0_r, get_append_length.
      reflexivity. }
    destruct (is_vowel c && negb (is_vowel prev)); cbn [length]; lia.
Qed.

Lemma vowel_loop_ends_e rest : forall prev count,
  endswith (String prev rest) "e" = true ->
  (if is_vowel prev then count else count + 1) <= vowel_loop prev rest count
  /\ count <= vowel_loop prev rest count.
Proof.
  induction rest as [|c rest IH]; intros prev count H.
  - cbn [vowel_loop]. cbn in H. rewrite orb_false_r in H.
    destruct (Ascii.eqb prev "e") eqn:E; [|discriminate].
    apply Ascii.eqb_eq in E. subst prev. cbn. lia.
  - cbn [vowel_loop].
    assert (endswith (String c rest) "e" = true) as Hc.
    { cbn [endswith] in H. apply orb_true_iff in H as [H|H]; [|exact H].
      cbn in H. destruct (Ascii.eqb prev "e"); discriminate. }
    destruct (IH c (if is_vowel c && negb (is_vowel prev) then count + 1 else count) Hc)
      as [H1 H2].
    destruct (is_vowel c), (is_vowel prev); cbn [andb negb] in *; lia.
Qed.

Lemma vowel_loop_ge rest : forall prev count, count <= vowel_loop prev rest count.
Proof.
  induction rest as [|c rest IH]; intros prev count; cbn [vowel_loop]; [lia|].
  specialize (IH c (if is_vowel c && negb (is_vowel prev) then count + 1 else count)).
  destruct (is_vowel c && negb (is_vowel prev)); lia.
Qed.

Lemma lower_nonempty s : nonempty s = true -> nonempty (lower s) = true.
Proof. destruct s; [discriminate|reflexivity]. Qed.

Lemma syllables_formula word :
  nonempty word = true ->
  syllables word =
  Ok (Z.max 1 (vowel_onsets (lower word)
               - suffix_rule (lower word) "e"
               + suffix_rule (lower word) "le"
               + suffix_rule (lower word) "sm"
               + suffix_rule (lower word) "thm")).
Proof.
  intros Hne. unfold syllables.
  destruct (lower word) as [|c0 rest] eqn:E.
  { apply lower_nonempty in Hne. rewrite E in Hne. discriminate. }
  f_equal.
  set (start := if is_vowel c0 then 0 + 1 else 0).
  assert (vowel_onsets (String c0 rest) = vowel_loop c0 rest start) as Hon.
  { rewrite (vowel_loop_onsets rest EmptyString c0 start).
    unfold vowel_onsets. cbn [String.length seq List.filter String.append].
    unfold is_onset at 1, vowel_at. cbn [String.get Nat.eqb orb].
    rewrite andb_true_r. subst start.
    change (EmptyString ++ String c0 rest) with (String c0 rest).
    destruct (is_vowel c0); cbn [length]; lia. }
  rewrite Hon. unfold suffix_rule.
  assert (0 <= vowel_loop c0 rest start
               - (if endswith (String c0 rest) "e" then 1 else 0)) as Hpos.
  { destruct (endswith (String c0 rest) "e") eqn:He.
    - destruct (vowel_loop_ends_e rest c0 start He) as [H _].
      subst start. destruct (is_vowel c0); lia.
    - pose proof (vowel_loop_ge rest c0 start). subst start.
      destruct (is_vowel c0); lia. }
  destruct (endswith (String c0 rest) "e"), (endswith (String c0 rest) "le"),
    (endswith (String c0 rest) "sm"), (endswith (String c0 rest) "thm");
    match goal with
    | |- (if ?x =? 0 then _ else _) = _ => destruct (Z.eqb_spec x 0)
    end; lia.
Qed.

Lemma syllables_at_least_one word :
  nonempty word = true -> exists n, syllables word = Ok n /\ 1 <= n.
Proof.
  intros H. rewrite (syllables_formula word H). eexists. split; [reflexivity|lia].
Qed.

(** *** The alphabetic branch *)

Lemma nsyl_alpha_miss d word :
  d !! lower word = None ->
  nsyl_alpha d word =
  match named_entity word with
  | Some n => Ok n
  | None => syllables word
  end.
Proof.
  intros H. unfold nsyl_alpha, d_getitem, named_entity. rewrite H. cbn [bind try_except].
  destruct (decide (KeyError = KeyError)) as [_|Hne]; [|contradiction].
  destruct (String.eqb (lower word) "facebook"); [reflexivity|].
  destruct (String.eqb (lower word) "thefacebook"); [reflexivity|].
  destruct (String.eqb (lower word) "tumblr"); reflexivity.
Qed.

Lemma try_except_mode data (handler : result Z) :
  try_except (mode data) StatisticsError handler =
  match mode data with
  | Ok m => Ok m
  | Raise _ => handler
  end.
Proof.
  unfold try_except. destruct (mode data) as [m|e] eqn:E; [reflexivity|].
  apply mode_error in E. subst e.
  destruct (decide (StatisticsError = StatisticsError)); [reflexivity|contradiction].
Qed.

Lemma mean_nonempty data :
  data <> [] ->
  mean data = Ok (inject_Z (sum_list data) / inject_Z (Z.of_nat (length data)))%Q.
Proof. destruct data; [contradiction|reflexivity]. Qed.

Lemma nsyl_alpha_hit d word phoneme_list syl_list :
  d !! lower word = Some phoneme_list ->
  syl_list_of phoneme_list = Ok syl_list ->
  nsyl_alpha d word =
  match irregular word with
  | Some n => Ok n
  | None =>
      if (1 <? length syl_list)%nat then
        match mode syl_list with
        | Ok m => Ok m
        | Raise _ =>
            Ok (py_round (inject_Z (sum_list syl_list)
                          / inject_Z (Z.of_nat (length syl_list))))
        end
      else getitem syl_list 0
  end.
Proof.
  intros Hd Hs. unfold nsyl_alpha, d_getitem, irregular. rewrite Hd. cbn [bind].
  rewrite Hs. cbn [bind].
  destruct (String.eqb word "US"); [reflexivity|].
  destruct (String.eqb word "us"); [reflexivity|].
  destruct (String.eqb word "separate"); [reflexivity|].
  destruct (1 <? length syl_list)%nat eqn:Hlen.
  - rewrite try_except_mode. rewrite mean_nonempty.
    2:{ intros ->. discriminate. }
    cbn [bind]. destruct (mode syl_list); reflexivity.
  - unfold getitem. destruct (nth_error syl_list 0); reflexivity.
Qed.

Lemma stressed_loop_error phoneme_set : forall (acc : list string) e,
  for_each phoneme_set
    (fun syl_count phoneme =>
       let* c := last_char phoneme in
       Ok (if is_digit c then (syl_count ++ [phoneme])%list else syl_count))
    acc = Raise e ->
  e = IndexError.
Proof.
  induction phoneme_set as [|ph rest IH]; intros acc e; [discriminate|].
  cbn [for_each]. destruct ph as [|c tl].
  - cbn. congruence.
  - destruct (last_char_nonempty (String c tl) eq_refl) as [x ->]. cbn [bind].
    apply IH.
Qed.

Lemma count_stressed_error phoneme_set e :
  count_stressed phoneme_set = Raise e -> e = IndexError.
Proof.
  unfold count_stressed. intros H.
  destruct (for_each phoneme_set _ []) as [l|e'] eqn:E; [discriminate|].
  cbn in H. injection H as <-. exact (stressed_loop_error _ _ _ E).
Qed.

Lemma syl_list_loop_error phoneme_list : forall (acc : list Z) e,
  for_each phoneme_list
    (fun syl_list phoneme_set =>
       let* n := count_stressed phoneme_set in Ok (syl_list ++ [n])%list)
    acc = Raise e ->
  e = IndexError.
Proof.
  induction phoneme_list as [|v rest IH]; intros acc e; [discriminate|].
  cbn [for_each]. destruct (count_stressed v) as [n|e'] eqn:E.
  - cbn [bind]. apply IH.
  - cbn [bind]. intros [= <-]. now apply count_stressed_error in E.
Qed.

Lemma syl_list_error phoneme_list e :
  syl_list_of phoneme_list = Raise e -> e = IndexError.
Proof. apply syl_list_loop_error. Qed.

Lemma nsyl_alpha_error d word e :
  nsyl_alpha d word = Raise e -> e = IndexError.
Proof.
  destruct (d !! lower word) as [phoneme_list|] eqn:Hd.
  - destruct (syl_list_of phoneme_list) as [syl_list|e'] eqn:Hs.
    + rewrite (nsyl_alpha_hit d word _ _ Hd Hs).
      destruct (irregular word); [discriminate|].
      destruct (1 <? length syl_list)%nat.
      * destruct (mode syl_list); discriminate.
      * unfold getitem. destruct (nth_error syl_list 0); congruence.
    + pose proof (syl_list_error _ _ Hs) as ->.
      unfold nsyl_alpha, d_getitem. rewrite Hd. cbn [bind]. rewrite Hs.
      cbn [bind try_except].
      destruct (decide (IndexError = KeyError)); [discriminate|congruence].
  - rewrite (nsyl_alpha_miss d word Hd).
    destruct (named_entity word); [discriminate|].
    unfold syllables. destruct (lower word); congruence.
Qed.

Lemma for_each_sum_error {A : Type} (f : A -> result Z) (P : exn -> Prop) xs :
  (forall x e, In x xs -> f x = Raise e -> P e) ->
  forall acc e,
    for_each xs (fun s x => let* n := f x in Ok (s + n)) acc = Raise e -> P e.
Proof.
  induction xs as [|x xs IH]; intros Hf acc e; [discriminate|].
  cbn [for_each]. destruct (f x) as [n|e'] eqn:E; cbn [bind].
  - apply IH. intros y e'' Hy. apply Hf. now right.
  - intros [= <-]. apply (Hf x); [now left|exact E].
Qed.

Lemma nsyl_error d limit : forall word e,
  nsyl d limit word = Raise e -> e = IndexError \/ e = RecursionError.
Proof.
  induction limit as [|limit IH]; intros word e.
  - cbn. intros [= <-]. now right.
  - rewrite nsyl_eq. destruct (isalpha word).
    { intros H. left. exact (nsyl_alpha_error _ _ _ H). }
    destruct (has_char "-" word); [|discriminate].
    destruct (re_search re_not_letter_hyphen word); [discriminate|].
    destruct (re_search re_letters_hyphen_letters word).
    { apply (for_each_sum_error (nsyl d limit)
               (fun e => e = IndexError \/ e = RecursionError)).
      intros x e' _. apply IH. }
    destruct (re_search re_letters_hyphen_end word); [apply IH|discriminate].
Qed.

Lemma named_entity_positive word n : named_entity word = Some n -> 1 <= n.
Proof.
  unfold named_entity.
  destruct (String.eqb (lower word) "facebook"); [intros [= <-]; lia|].
  destruct (String.eqb (lower word) "thefacebook"); [intros [= <-]; lia|].
  destruct (String.eqb (lower word) "tumblr"); [intros [= <-]; lia|discriminate].
Qed.

Lemma irregular_positive word n : irregular word = Some n -> 1 <= n.
Proof.
  unfold irregular.
  destruct (String.eqb word "US"); [intros [= <-]; lia|].
  destruct (String.eqb word "us"); [intros [= <-]; lia|].
  destruct (String.eqb word "separate"); [intros [= <-]; lia|discriminate].
Qed.

Lemma isalpha_nonempty word : isalpha word = true -> nonempty word = true.
Proof. unfold isalpha. now intros [H _]%andb_true_iff. Qed.

Lemma nsyl_alpha_sound_entry d word :
  (forall phoneme_list,
     d !! lower word = Some phoneme_list -> sound_entry phoneme_list = true) ->
  isalpha word = true ->
  exists n, nsyl_alpha d word = Ok n /\ 1 <= n.
Proof.
  intros Hd Hw. destruct (d !! lower word) as [phoneme_list|] eqn:E.
  - specialize (Hd _ eq_refl). unfold sound_entry in Hd.
    destruct phoneme_list as [|v vs] eqn:El; [discriminate|]. rewrite <- El in *.
    destruct (syl_list_sound _ Hd) as [Hs Hall].
    rewrite (nsyl_alpha_hit d word _ _ E Hs).
    set (syl_list := map stress_marks phoneme_list) in *.
    destruct (irregular word) as [n|] eqn:Hi.
    { exists n. split; [reflexivity|]. eapply irregular_positive, Hi. }
    assert (syl_list <> []) as Hne by (subst syl_list; rewrite El; discriminate).
    destruct (1 <? length syl_list)%nat.
    + destruct (mode_returns syl_list Hne) as [m Hm]. rewrite Hm.
      exists m. split; [reflexivity|]. apply mode_member in Hm.
      rewrite List.Forall_forall in Hall. now apply Hall.
    + destruct syl_list as [|n ns] eqn:Esl; [contradiction|].
      exists n. split; [reflexivity|]. now inversion Hall.
  - rewrite (nsyl_alpha_miss d word E).
    destruct (named_entity word) as [n|] eqn:Hn.
    + exists n. split; [reflexivity|]. eapply named_entity_positive, Hn.
    + apply syllables_at_least_one. now apply isalpha_nonempty.
Qed.

Lemma nsyl_alpha_at_least_one d word :
  sound_dictionary d -> isalpha word = true ->
  exists n, nsyl_alpha d word = Ok n /\ 1 <= n.
Proof.
  intros Hd Hw. apply nsyl_alpha_sound_entry; [|exact Hw].
  intros phoneme_list E. exact (Hd _ _ E).
Qed.

(** *** Pieces of a hyphenated word *)

Lemma split_nonempty sep s : split sep s <> [].
Proof.
  destruct s as [|c s]; [discriminate|]. cbn [split].
  destruct (Ascii.eqb c sep); [discriminate|]. destruct (split sep s); discriminate.
Qed.

Lemma split_letters s :
  all_chars letter_or_hyphen s = true ->
  Forall (fun piece => all_chars is_letter piece = true) (split "-" s).
Proof.
  induction s as [|c s IH]; intros H.
  - repeat constructor.
  - cbn [all_chars] in H. apply andb_true_iff in H as [Hc Hs].
    specialize (IH Hs). cbn [split]. destruct (Ascii.eqb c "-") eqn:E.
    + constructor; [reflexivity|exact IH].
    + unfold letter_or_hyphen in Hc. rewrite E, orb_false_r in Hc.
      destruct (split "-" s) as [|piece pieces]; [repeat constructor; cbn; now rewrite Hc|].
      inversion IH; subst. constructor; [|assumption].
      cbn [all_chars]. now rewrite Hc.
Qed.

Lemma nsyl_letters d limit piece :
  all_chars is_letter piece = true ->
  nsyl d (S limit) piece = if isalpha piece then nsyl_alpha d piece else Ok 1.
Proof. intros H. apply nsyl_no_hyphen. now apply all_letters_no_hyphen. Qed.

Lemma for_each_sum_ge {A : Type} (f : A -> result Z) xs :
  (forall x, In x xs -> exists n, f x = Ok n /\ 1 <= n) ->
  forall acc, exists total,
    for_each xs (fun s x => let* n := f x in Ok (s + n)) acc = Ok total /\
    acc + Z.of_nat (length xs) <= total.
Proof.
  induction xs as [|x xs IH]; intros Hf acc.
  - exists acc. split; [reflexivity|cbn; lia].
  - destruct (Hf x ltac:(now left)) as (n & Hn & Hge).
    destruct (IH (fun y Hy => Hf y (or_intror Hy)) (acc + n)) as (total & Ht & Hle).
    exists total. cbn [for_each]. rewrite Hn. cbn [bind]. split; [exact Ht|].
    cbn [length]. lia.
Qed.

(** Two nested calls suffice for every word in which no letter is directly
    followed by two hyphens: on such a word [nsyl] does not exhaust the
    recursion limit. *)
Lemma nsyl_depth_two d limit word :
  re_search re_letter_two_hyphens word = false ->
  nsyl d (S (S limit)) word <> Raise RecursionError.
Proof.
  intros Hw He.
  assert (forall piece, all_chars is_letter piece = true ->
            forall e, nsyl d (S limit) piece = Raise e -> e = IndexError) as Hpiece.
  { intros piece Hp e. rewrite (nsyl_letters d limit piece Hp).
    destruct (isalpha piece); [apply nsyl_alpha_error|discriminate]. }
  rewrite nsyl_eq in He.
  destruct (isalpha word); [now apply nsyl_alpha_error in He|].
  destruct (has_char "-" word); [|discriminate].
  destruct (re_search re_not_letter_hyphen word) eqn:E1; [discriminate|].
  unfold re_search in E1. rewrite not_letter_hyphen_search in E1.
  apply negb_false_iff in E1.
  destruct (re_search re_letters_hyphen_letters word) eqn:E2.
  - apply (for_each_sum_error (nsyl d (S limit)) (fun e => e = IndexError)) in He;
      [discriminate|].
    intros piece e Hin. apply Hpiece.
    pose proof (split_letters word E1) as Hall.
    rewrite List.Forall_forall in Hall. now apply Hall.
  - destruct (re_search re_letters_hyphen_end word); [|discriminate].
    apply Hpiece in He; [discriminate|]. now apply strip_letters.
Qed.

(** *** What a successful search says about the string *)

Lemma any_char_cons p c s : any_char p s = true -> any_char p (String c s) = true.
Proof. intros H. cbn [any_char]. rewrite H. apply orb_true_r. Qed.

Lemma search_first_one c p s : forall prev,
  search_from (One c :: p) prev s = true -> any_char (cls_mem c) s = true.
Proof.
  induction s as [|x s IH]; intros prev; [discriminate|].
  cbn [search_from match_here any_char].
  intros [H|H]%orb_true_iff.
  - apply andb_true_iff in H as [-> _]. reflexivity.
  - rewrite (IH _ H). apply orb_true_r.
Qed.

Lemma search_first_plus c p s : forall prev,
  search_from (Plus c :: p) prev s = true -> any_char (cls_mem c) s = true.
Proof.
  induction s as [|x s IH]; intros prev; [discriminate|].
  cbn [search_from match_here any_char].
  intros [H|H]%orb_true_iff.
  - apply andb_true_iff in H as [-> _]. reflexivity.
  - rewrite (IH _ H). apply orb_true_r.
Qed.

Lemma match_star_then_one c c' p s : forall prev,
  match_star c (match_here (One c' :: p)) prev s = true ->
  any_char (cls_mem c') s = true.
Proof.
  induction s as [|x s IH]; intros prev; [discriminate|].
  cbn [match_star match_here any_char].
  intros [H|H]%orb_true_iff.
  - apply andb_true_iff in H as [-> _]. reflexivity.
  - apply andb_true_iff in H as [_ H]. rewrite (IH _ H). apply orb_true_r.
Qed.

Lemma search_plus_then_one c c' p s : forall prev,
  search_from (Plus c :: One c' :: p) prev s = true ->
  any_char (cls_mem c') s = true.
Proof.
  induction s as [|x s IH]; intros prev; [discriminate|].
  cbn [search_from match_here].
  intros [H|H]%orb_true_iff; apply any_char_cons.
  - apply andb_true_iff in H as [_ H]. exact (match_star_then_one _ _ _ _ _ H).
  - exact (IH _ H).
Qed.

Lemma any_char_ext (p q : ascii -> bool) s :
  (forall c, p c = true -> q c = true) -> any_char p s = true -> any_char q s = true.
Proof.
  intros Hpq. induction s as [|c s IH]; [discriminate|]. cbn [any_char].
  intros [H|H]%orb_true_iff; [rewrite (Hpq _ H)|rewrite (IH H)]; auto using orb_true_r.
Qed.

Lemma letters_hyphen_letters_has_hyphen s :
  re_search re_letters_hyphen_letters s = true -> has_char "-" s = true.
Proof.
  intros H. apply search_plus_then_one in H. unfold has_char.
  apply (any_char_ext (cls_mem hyphen)); [|exact H].
  intros c Hc. rewrite cls_mem_hyphen in Hc. now rewrite Ascii.eqb_sym.
Qed.

(** *** Additivity over the pieces *)

Lemma for_each_map_ext {A : Type} (f g : A -> result Z) xs :
  (forall x, In x xs -> f x = g x) ->
  forall acc,
    for_each xs (fun s x => let* n := f x in Ok (s + n)) acc =
    for_each (map g xs) (fun s r => let* n := r in Ok (s + n)) acc.
Proof.
  induction xs as [|x xs IH]; intros H acc; [reflexivity|].
  cbn [for_each map]. rewrite (H x ltac:(now left)).
  destruct (g x) as [n|e]; cbn [bind]; [|reflexivity].
  apply IH. intros y Hy. apply H. now right.
Qed.

Lemma nsyl_split_sum d limit word :
  all_chars letter_or_hyphen word = true ->
  re_search re_letters_hyphen_letters word = true ->
  nsyl d (S (S limit)) word =
  sum_results (map (nsyl d (S (S limit))) (split "-" word)).
Proof.
  intros Hlh Hre. pose proof (letters_hyphen_letters_has_hyphen _ Hre) as Hh.
  rewrite nsyl_eq.
  assert (isalpha word = false) as ->.
  { destruct (isalpha word) eqn:E; [|reflexivity].
    unfold isalpha in E. apply andb_true_iff in E as [_ E].
    apply all_letters_no_hyphen in E. congruence. }
  rewrite Hh. unfold re_search at 1. rewrite not_letter_hyphen_search, Hlh, Hre.
  cbn [negb]. unfold sum_results. apply for_each_map_ext.
  intros piece Hin. pose proof (split_letters word Hlh) as Hall.
  rewrite List.Forall_forall in Hall. specialize (Hall _ Hin).
  now rewrite !nsyl_letters.
Qed.

(** *** Building a match *)

Lemma match_star_append c k a s :
  all_chars (cls_mem c) a = true ->
  (forall prev, k prev s = true) ->
  forall prev, match_star c k prev (a ++ s) = true.
Proof.
  intros Ha Hk. induction a as [|x a IH]; intros prev.
  - now apply match_star_skip.
  - cbn [all_chars] in Ha. apply andb_true_iff in Ha as [Hx Ha].
    change (String x a ++ s) with (String x (a ++ s)). cbn [match_star].
    rewrite Hx, (IH Ha). apply orb_true_r.
Qed.

Lemma match_plus_append c p a s :
  nonempty a = true -> all_chars (cls_mem c) a = true ->
  (forall prev, match_here p prev s = true) ->
  forall prev, match_here (Plus c :: p) prev (a ++ s) = true.
Proof.
  intros Hne Ha Hp prev. destruct a as [|x a]; [discriminate|].
  cbn [all_chars] in Ha. apply andb_true_iff in Ha as [Hx Ha].
  change (String x a ++ s) with (String x (a ++ s)). cbn [match_here].
  rewrite Hx. now apply match_star_append.
Qed.

Lemma match_one_cons c p x s :
  cls_mem c x = true ->
  (forall prev, match_here p prev s = true) ->
  forall prev, match_here (One c :: p) prev (String x s) = true.
Proof. intros Hx Hp prev. cbn [match_here]. now rewrite Hx, Hp. Qed.

Lemma search_here p s : match_here p None s = true -> re_search p s = true.
Proof. intros H. unfold re_search. destruct s; cbn [search_from]; now rewrite H. Qed.

Lemma all_chars_ext (p q : ascii -> bool) s :
  (forall c, p c = true -> q c = true) -> all_chars p s = true -> all_chars q s = true.
Proof.
  intros Hpq. induction s as [|c s IH]; [reflexivity|]. cbn [all_chars].
  intros [Hc Hs]%andb_true_iff. now rewrite (Hpq _ Hc), (IH Hs).
Qed.

Lemma all_chars_append p a b :
  all_chars p (a ++ b) = all_chars p a && all_chars p b.
Proof.
  induction a as [|c a IH]; [reflexivity|].
  change (String c a ++ b) with (String c (a ++ b)). cbn [all_chars].
  now rewrite IH, andb_assoc.
Qed.

Lemma isalpha_letters s : isalpha s = true -> all_chars (cls_mem letter) s = true.
Proof.
  unfold isalpha. intros [_ H]%andb_true_iff.
  apply (all_chars_ext is_letter); [|exact H]. intros c. now rewrite cls_mem_letter.
Qed.

(** *** Words made of alphabetic runs *)

Lemma split_no_sep sep s : has_char sep s = false -> split sep s = [s].
Proof.
  unfold has_char. induction s as [|c s IH]; [reflexivity|].
  cbn [any_char split]. intros [Hc Hs]%orb_false_iff.
  rewrite Ascii.eqb_sym, Hc, (IH Hs). reflexivity.
Qed.

Lemma split_append sep a b :
  has_char sep a = false ->
  split sep (a ++ String sep b) = a :: split sep b.
Proof.
  unfold has_char. induction a as [|c a IH]; intros H.
  - change (EmptyString ++ String sep b) with (String sep b). cbn [split].
    now rewrite Ascii.eqb_refl.
  - cbn [any_char] in H. apply orb_false_iff in H as [Hc Ha].
    change (String c a ++ String sep b) with (String c (a ++ String sep b)).
    cbn [split]. rewrite Ascii.eqb_sym, Hc, (IH Ha). reflexivity.
Qed.

Lemma isalpha_no_hyphen s : isalpha s = true -> has_char "-" s = false.
Proof.
  unfold isalpha. intros [_ H]%andb_true_iff. now apply all_letters_no_hyphen.
Qed.

Lemma split_concat runs :
  runs <> [] -> Forall (fun r => isalpha r = true) runs ->
  split "-" (String.concat "-" runs) = runs.
Proof.
  intros Hne Hall. induction Hall as [|r rs Hr Hrs IH]; [contradiction|].
  destruct rs as [|r' rs'].
  - cbn [String.concat]. now apply split_no_sep, isalpha_no_hyphen.
  - change (String.concat "-" (r :: r' :: rs'))
      with (r ++ String "-" (String.concat "-" (r' :: rs'))).
    rewrite split_append by now apply isalpha_no_hyphen.
    now rewrite IH.
Qed.

Lemma concat_letters_or_hyphens runs :
  Forall (fun r => isalpha r = true) runs ->
  all_chars letter_or_hyphen (String.concat "-" runs) = true.
Proof.
  induction 1 as [|r rs Hr Hrs IH]; [reflexivity|].
  assert (all_chars letter_or_hyphen r = true) as Hr'.
  { unfold isalpha in Hr. apply andb_true_iff in Hr as [_ Hr].
    apply (all_chars_ext is_letter); [|exact Hr].
    intros c Hc. unfold letter_or_hyphen. now rewrite Hc. }
  destruct rs as [|r' rs']; [exact Hr'|].
  change (String.concat "-" (r :: r' :: rs'))
    with (r ++ String "-" (String.concat "-" (r' :: rs'))).
  rewrite all_chars_append, Hr'. cbn [all_chars andb]. exact IH.
Qed.

Lemma concat_matches runs r1 r2 rest :
  runs = r1 :: r2 :: rest ->
  isalpha r1 = true -> isalpha r2 = true ->
  re_search re_letters_hyphen_letters (String.concat "-" runs) = true.
Proof.
  intros -> H1 H2. apply search_here.
  assert (exists tail, String.concat "-" (r1 :: r2 :: rest)
                       = r1 ++ String "-" (r2 ++ tail)) as [tail ->].
  { destruct rest as [|r3 rest].
    - exists EmptyString. cbn [String.concat].
      f_equal. f_equal. clear. induction r2 as [|c r2 IH]; [reflexivity|].
      change (String c r2 ++ EmptyString) with (String c (r2 ++ EmptyString)). now rewrite <- IH.
    - exists (String "-" (String.concat "-" (r3 :: rest))). reflexivity. }
  unfold re_letters_hyphen_letters.
  apply match_plus_append;
    [now apply isalpha_nonempty|now apply isalpha_letters|].
  apply match_one_cons; [reflexivity|].
  apply match_plus_append;
    [now apply isalpha_nonempty|now apply isalpha_letters|reflexivity].
Qed.

(** *** Gunning fog *)

Lemma gfi_is_complex_spec d limit word tag n :
  nsyl d limit word = Ok n ->
  gfi_is_complex d limit word tag = Ok (complex_word n word tag).
Proof.
  intros H. unfold gfi_is_complex, complex_word. rewrite H. cbn [bind].
  destruct ((3 <=? n) && negb (contains "NNP" tag) && negb (has_char "-" word));
    [|reflexivity].
  cbn [andb].
  now destruct ((n =? 3) && contains "VB" tag
                && (endswith word "es" || endswith word "ed" || endswith word "ing")).
Qed.

Lemma gfi_loop d limit (syl : string -> Z) tagged : forall acc,
  (forall item, In item tagged -> nsyl d limit (fst item) = Ok (syl (fst item))) ->
  for_each tagged
    (fun complex_words item =>
       let* c := gfi_is_complex d limit (fst item) (snd item) in
       Ok (if c then complex_words + 1 else complex_words))
    acc
  = Ok (acc + Z.of_nat (length (List.filter
          (fun item => complex_word (syl (fst item)) (fst item) (snd item))
          tagged))).
Proof.
  induction tagged as [|item tagged IH]; intros acc H.
  - cbn. f_equal. lia.
  - cbn [for_each List.filter].
    rewrite (gfi_is_complex_spec d limit _ _ _ (H item ltac:(now left))).
    cbn [bind]. rewrite IH by (intros i Hi; apply H; now right).
    destruct (complex_word (syl (fst item)) (fst item) (snd item));
      cbn [length]; f_equal; lia.
Qed.

Lemma truediv_ok a b : b <> 0 -> truediv a b = Ok (inject_Z a / inject_Z b)%Q.
Proof. intros H. unfold truediv. now destruct (Z.eqb_spec b 0). Qed.

Lemma length_nonzero {A : Type} (xs : list A) : xs <> [] -> Z.of_nat (length xs) <> 0.
Proof. destruct xs; [contradiction|cbn [length]; lia]. Qed.

(** *** Slices *)

Lemma slice_prefix {A : Type} (xs : list A) (k : Z) :
  0 <= k <= Z.of_nat (length xs) -> slice xs 0 k = firstn (Z.to_nat k) xs.
Proof.
  intros H. unfold slice, slice_bound.
  destruct (Z.ltb_spec k 0); [lia|]. cbn [Z.ltb Z.compare].
  rewrite Z.min_l, Z.min_l by lia. cbn [Z.to_nat skipn].
  now rewrite Z.sub_0_r.
Qed.

Lemma slice_to_end {A : Type} (xs : list A) (i : Z) :
  0 <= i <= Z.of_nat (length xs) ->
  slice xs i (Z.of_nat (length xs)) = skipn (Z.to_nat i) xs.
Proof.
  intros H. unfold slice, slice_bound.
  destruct (Z.ltb_spec i 0); [lia|].
  destruct (Z.ltb_spec (Z.of_nat (length xs)) 0); [lia|].
  rewrite (Z.min_l i) by lia. rewrite Z.min_id.
  apply firstn_all2. rewrite length_skipn. lia.
Qed.

Lemma slice_wrapped_end {A : Type} (xs : list A) :
  (length xs < 10)%nat ->
  slice xs (Z.of_nat (length xs) - 10) (Z.of_nat (length xs)) =
  skipn (2 * length xs - 10) xs.
Proof.
  intros H. unfold slice, slice_bound.
  destruct (Z.ltb_spec (Z.of_nat (length xs) - 10) 0); [|lia].
  destruct (Z.ltb_spec (Z.of_nat (length xs)) 0); [lia|].
  rewrite Z.min_id.
  replace (Z.to_nat (Z.max (Z.of_nat (length xs) - 10 + Z.of_nat (length xs)) 0))
    with (2 * length xs - 10)%nat by lia.
  apply firstn_all2. rewrite length_skipn. lia.
Qed.

Lemma slice_all_short {A : Type} (xs : list A) :
  (length xs <= 5 \/ length xs = 10)%nat ->
  slice xs (Z.of_nat (length xs) - 10) (Z.of_nat (length xs)) = xs.
Proof.
  intros [H|H].
  - rewrite slice_wrapped_end by lia.
    now replace (2 * length xs - 10)%nat with 0%nat by lia.
  - rewrite slice_to_end by lia.
    now replace (Z.to_nat (Z.of_nat (length xs) - 10)) with 0%nat by lia.
Qed.

(** *** SMOG *)

Lemma count_difficult_loop_error d limit words : forall acc e,
  for_each words
    (fun difficult_words word =>
       let* n := nsyl d limit word in
       Ok (if 3 <=? n then difficult_words + 1 else difficult_words))
    acc = Raise e ->
  e = IndexError \/ e = RecursionError.
Proof.
  induction words as [|w words IH]; intros acc e; [discriminate|].
  cbn [for_each]. destruct (nsyl d limit w) as [n|e'] eqn:E; cbn [bind].
  - apply IH.
  - intros [= <-]. exact (nsyl_error _ _ _ _ E).
Qed.

Lemma count_difficult_loop_ok d limit words : forall acc,
  (forall w, In w words -> exists n, nsyl d limit w = Ok n) ->
  exists k, for_each words
    (fun difficult_words word =>
       let* n := nsyl d limit word in
       Ok (if 3 <=? n then difficult_words + 1 else difficult_words))
    acc = Ok k.
Proof.
  induction words as [|w words IH]; intros acc H.
  - now exists acc.
  - destruct (H w ltac:(now left)) as [n Hn]. cbn [for_each]. rewrite Hn.
    cbn [bind]. apply IH. intros x Hx. apply H. now right.
Qed.

Lemma smog_error d limit word_tokenize sent_tokenize text e :
  smog d limit word_tokenize sent_tokenize text = Raise e ->
  e = IndexError \/ e = RecursionError.
Proof.
  unfold smog, count_difficult.
  destruct (for_each _ _ 0) as [k|e'] eqn:E; cbn [bind]; [discriminate|].
  intros [= <-]. exact (count_difficult_loop_error _ _ _ _ _ E).
Qed.

Lemma smog_selection_empty : smog_selection [] = EmptyString.
Proof. reflexivity. Qed.

Lemma smog_selection_long sentence_list :
  (20 <= length sentence_list)%nat ->
  let n := Z.of_nat (length sentence_list) in
  smog_selection sentence_list =
  join_spaces (firstn 9 sentence_list)
  ++ join_spaces (slice sentence_list (Qfloor (inject_Z n / 2 - 5))
                                      (py_round (inject_Z n / 2 - 5)))
  ++ join_spaces (skipn (length sentence_list - 10) sentence_list).
Proof.
  intros H n. unfold smog_selection. fold n.
  rewrite (slice_prefix sentence_list 9) by lia.
  change (Z.to_nat 9) with 9%nat. subst n. rewrite slice_to_end by lia.
  now replace (Z.to_nat (Z.of_nat (length sentence_list) - 10))
    with (length sentence_list - 10)%nat by lia.
Qed.

(** *** Age converters *)

(** Decide the comparisons of a converter and discard the impossible
    cases. *)
Ltac clamp :=
  intros;
  unfold convert_fres, convert_ari, convert_gfi;
  repeat match goal with
         | |- context [Qlt_le_dec ?a ?b] => destruct (Qlt_le_dec a b)
         end;
  try reflexivity; exfalso; lra.

Lemma convert_fres_below v : (v < 30)%Q -> convert_fres v = Ok (Str "24").
Proof. clamp. Qed.

Lemma convert_fres_above v : (100 < v)%Q -> convert_fres v = Ok (Str "10").
Proof. clamp. Qed.

Lemma convert_ari_above v : (14 < v)%Q -> convert_ari v = Ok (Str "24").
Proof. clamp. Qed.

Lemma convert_ari_below v : (v < 1)%Q -> convert_ari v = Ok (Str "5").
Proof. clamp. Qed.

Lemma convert_gfi_above v : (17 < v)%Q -> convert_gfi v = Ok (Str "24").
Proof. clamp. Qed.

Lemma convert_gfi_below v : (v < 6)%Q -> convert_gfi v = Ok (Str "11").
Proof. clamp. Qed.

(** *** The word filter *)

Lemma cls_mem_alnum c : cls_mem alnum c = is_alnum c.
Proof.
  unfold cls_mem, alnum, is_alnum, is_letter, is_lower, is_upper, is_digit.
  cbn [existsb item_mem]. now rewrite orb_false_r, orb_assoc.
Qed.

Lemma cls_mem_digit c : cls_mem (OneOf [AnyDigit]) c = is_digit c.
Proof. unfold cls_mem. cbn [existsb item_mem]. apply orb_false_r. Qed.

Lemma letter_alnum c : is_letter c = true -> is_alnum c = true.
Proof. intros H. unfold is_alnum. now rewrite H. Qed.

Lemma digit_alnum c : is_digit c = true -> is_alnum c = true.
Proof. intros H. unfold is_alnum. rewrite H. apply orb_true_r. Qed.

Lemma all_any_nonempty p s :
  nonempty s = true -> all_chars p s = true -> any_char p s = true.
Proof.
  destruct s as [|c s]; [discriminate|]. intros _. cbn [all_chars any_char].
  now intros [-> _]%andb_true_iff.
Qed.

Lemma search_append p a s :
  (forall prev, match_here p prev s = true) ->
  forall prev, search_from p prev (a ++ s) = true.
Proof.
  intros H. induction a as [|c a IH]; intros prev.
  - change (EmptyString ++ s) with s. destruct s; cbn [search_from]; now rewrite H.
  - change (String c a ++ s) with (String c (a ++ s)). cbn [search_from].
    rewrite IH. apply orb_true_r.
Qed.

Lemma keep_word_needs_alnum_or_apostrophe token :
  keep_word token = true ->
  any_char is_alnum token = true \/ has_char "'" token = true.
Proof.
  unfold keep_word.
  intros [[[[H|H]%orb_true_iff|H]%orb_true_iff|H]%orb_true_iff|H]%orb_true_iff.
  - left. unfold isalnum in H. apply andb_true_iff in H as [Hne Hall].
    now apply all_any_nonempty.
  - right. apply search_first_one in H. unfold has_char.
    apply (any_char_ext (cls_mem (OneOf [Lit "'"]))); [|exact H].
    intros c Hc. unfold cls_mem in Hc. cbn [existsb item_mem] in Hc.
    rewrite orb_false_r in Hc. now rewrite Ascii.eqb_sym.
  - left. apply search_first_plus in H.
    apply (any_char_ext (cls_mem letter)); [|exact H].
    intros c Hc. rewrite cls_mem_letter in Hc. now apply letter_alnum.
  - left. apply search_first_plus in H.
    apply (any_char_ext (cls_mem (OneOf [AnyDigit]))); [|exact H].
    intros c Hc. rewrite cls_mem_digit in Hc. now apply digit_alnum.
  - left. apply andb_true_iff in H as [_ H]. apply search_first_plus in H.
    apply (any_char_ext (cls_mem alnum)); [|exact H].
    intros c Hc. now rewrite cls_mem_alnum in Hc.
Qed.











(** *** Extending a match *)

Lemma match_star_extend c (k k' : option ascii -> string -> bool) b :
  (forall prev prev' s, k prev s = true -> k' prev' (s ++ b) = true) ->
  forall s prev prev',
    match_star c k prev s = true -> match_star c k' prev' (s ++ b) = true.
Proof.
  intros Hk. induction s as [|x s IH]; intros prev prev'.
  - cbn [match_star]. rewrite orb_false_r. intros H.
    apply match_star_skip. exact (Hk _ _ _ H).
  - cbn [match_star]. intros [H|H]%orb_true_iff.
    + apply match_star_skip. exact (Hk _ _ _ H).
    + apply andb_true_iff in H as [Hx H].
      change (String x s ++ b) with (String x (s ++ b)). cbn [match_star].
      rewrite Hx, (IH _ (Some x) H). apply orb_true_r.
Qed.

(** A match of a pattern without [\B] does not depend on the character
    before it, and stays a match when the string goes on. *)
Lemma match_here_extend p b :
  boundary_free p = true ->
  forall prev prev' s,
    match_here p prev s = true -> match_here p prev' (s ++ b) = true.
Proof.
  unfold boundary_free.
  induction p as [|a p IH]; intros Hp prev prev' s; [reflexivity|].
  cbn [forallb] in Hp. apply andb_true_iff in Hp as [Ha Hp]. specialize (IH Hp).
  destruct a as [c|c|c|]; [| | |discriminate].
  - destruct s as [|x s]; [discriminate|]. cbn [match_here].
    intros [Hx H]%andb_true_iff.
    change (String x s ++ b) with (String x (s ++ b)). cbn [match_here].
    rewrite Hx. exact (IH _ _ _ H).
  - destruct s as [|x s]; [discriminate|]. cbn [match_here].
    intros [Hx H]%andb_true_iff.
    change (String x s ++ b) with (String x (s ++ b)). cbn [match_here].
    rewrite Hx. exact (match_star_extend c _ _ b IH _ _ _ H).
  - cbn [match_here]. apply match_star_extend. exact IH.
Qed.

Lemma search_extend p b :
  boundary_free p = true ->
  forall s prev prev',
    search_from p prev s = true -> search_from p prev' (s ++ b) = true.
Proof.
  intros Hp. induction s as [|x s IH]; intros prev prev'.
  - cbn [search_from]. rewrite orb_false_r. intros H.
    pose proof (match_here_extend p b Hp prev prev' _ H) as H'.
    change (EmptyString ++ b) with b in *.
    destruct b; cbn [search_from]; now rewrite H'.
  - cbn [search_from]. intros [H|H]%orb_true_iff;
      change (String x s ++ b) with (String x (s ++ b)); cbn [search_from].
    + pose proof (match_here_extend p b Hp prev prev' _ H) as H'.
      change (String x s ++ b) with (String x (s ++ b)) in H'. now rewrite H'.
    + rewrite (IH _ (Some x) H). apply orb_true_r.
Qed.

Lemma search_inside p pre s post :
  boundary_free p = true ->
  re_search p s = true -> re_search p (pre ++ s ++ post) = true.
Proof.
  unfold re_search. intros Hp H.
  assert (forall prev, search_from p prev (s ++ post) = true) as H'.
  { intros prev. exact (search_extend p post Hp s None prev H). }
  clear H. generalize (@None ascii).
  induction pre as [|x pre IH]; intros prev; [apply H'|].
  change (String x pre ++ s ++ post) with (String x (pre ++ s ++ post)).
  cbn [search_from]. rewrite IH. apply orb_true_r.
Qed.

(** *** The word between the hyphens at its ends *)

Lemma lstrip_decompose s :
  exists pre, s = pre ++ lstrip "-" s /\ any_char is_letter pre = false.
Proof.
  induction s as [|c s (pre & IH & Hpre)].
  - exists EmptyString. split; reflexivity.
  - cbn [lstrip]. destruct (Ascii.eqb c "-") eqn:E.
    + exists (String c pre). split.
      * change (String c pre ++ lstrip "-" s) with (String c (pre ++ lstrip "-" s)).
        now rewrite <- IH.
      * cbn [any_char]. now rewrite (hyphen_not_letter _ E), Hpre.
    + exists EmptyString. split; reflexivity.
Qed.

Lemma rstrip_decompose s :
  exists post, s = rstrip "-" s ++ post /\ any_char is_letter post = false.
Proof.
  induction s as [|c s (post & IH & Hpost)].
  - exists EmptyString. split; reflexivity.
  - cbn [rstrip]. destruct (rstrip "-" s) as [|r0 r] eqn:Er.
    + change (EmptyString ++ post) with post in IH. subst post.
      destruct (Ascii.eqb c "-") eqn:E.
      * exists (String c s). split; [reflexivity|].
        cbn [any_char]. now rewrite (hyphen_not_letter _ E), Hpost.
      * exists s. split; [reflexivity|exact Hpost].
    + exists post. split; [|exact Hpost].
      change (String c (String r0 r) ++ post) with (String c (String r0 r ++ post)).
      now rewrite <- IH.
Qed.

Lemma strip_decompose s :
  exists pre post,
    s = pre ++ strip "-" s ++ post /\
    any_char is_letter pre = false /\ any_char is_letter post = false.
Proof.
  destruct (lstrip_decompose s) as (pre & Hs & Hpre).
  destruct (rstrip_decompose (lstrip "-" s)) as (post & Hl & Hpost).
  exists pre, post. unfold strip. split; [|split; assumption].
  now rewrite <- Hl.
Qed.

Lemma any_char_append p a b : any_char p (a ++ b) = any_char p a || any_char p b.
Proof.
  induction a as [|c a IH]; [reflexivity|].
  change (String c a ++ b) with (String c (a ++ b)). cbn [any_char].
  now rewrite IH, orb_assoc.
Qed.

Lemma strip_all_chars p s :
  all_chars p s = true -> all_chars p (strip "-" s) = true.
Proof.
  destruct (strip_decompose s) as (pre & post & Hs & _). intros H.
  rewrite Hs, !all_chars_append in H.
  apply andb_true_iff in H as [_ H]. now apply andb_true_iff in H as [H _].
Qed.

Lemma strip_has_char c s :
  has_char c (strip "-" s) = true -> has_char c s = true.
Proof.
  destruct (strip_decompose s) as (pre & post & Hs & _). unfold has_char. intros H.
  rewrite Hs, !any_char_append, H. now rewrite orb_true_r.
Qed.

Lemma strip_keeps_letters s :
  any_char is_letter s = true -> any_char is_letter (strip "-" s) = true.
Proof.
  destruct (strip_decompose s) as (pre & post & Hs & Hpre & Hpost). intros H.
  rewrite Hs, !any_char_append, Hpre, Hpost, orb_false_r in H. exact H.
Qed.

Lemma strip_search p s :
  boundary_free p = true ->
  re_search p (strip "-" s) = true -> re_search p s = true.
Proof.
  destruct (strip_decompose s) as (pre & post & Hs & _). intros Hp H.
  rewrite Hs. now apply search_inside.
Qed.

Lemma letters_without_hyphen s :
  all_chars letter_or_hyphen s = true -> has_char "-" s = false ->
  all_chars is_letter s = true.
Proof.
  unfold has_char. induction s as [|c s IH]; [reflexivity|].
  cbn [all_chars any_char].
  intros [Hc Hs]%andb_true_iff [Hh Hr]%orb_false_iff.
  rewrite (IH Hs Hr), andb_true_r.
  unfold letter_or_hyphen in Hc. rewrite Ascii.eqb_sym, Hh, orb_false_r in Hc.
  exact Hc.
Qed.

Lemma any_nonempty p s : any_char p s = true -> nonempty s = true.
Proof. now destruct s. Qed.

Lemma lstrip_first s :
  all_chars letter_or_hyphen s = true -> letter_first (lstrip "-" s).
Proof.
  induction s as [|c s IH]; [reflexivity|]. cbn [all_chars lstrip].
  intros [Hc Hs]%andb_true_iff. destruct (Ascii.eqb c "-") eqn:E; [now apply IH|].
  cbn [letter_first]. unfold letter_or_hyphen in Hc. now rewrite E, orb_false_r in Hc.
Qed.

Lemma rstrip_first s : letter_first s -> letter_first (rstrip "-" s).
Proof.
  destruct s as [|c s]; [reflexivity|]. cbn [letter_first rstrip]. intros Hc.
  destruct (rstrip "-" s); [|exact Hc].
  destruct (Ascii.eqb c "-"); [reflexivity|exact Hc].
Qed.

Lemma lstrip_fixed s : letter_first s -> lstrip "-" s = s.
Proof.
  destruct s as [|c s]; [reflexivity|]. cbn [letter_first lstrip]. intros Hc.
  destruct (Ascii.eqb c "-") eqn:E; [|reflexivity].
  apply hyphen_not_letter in E. congruence.
Qed.

Lemma rstrip_fixed s : rstrip "-" (rstrip "-" s) = rstrip "-" s.
Proof.
  induction s as [|c s IH]; [reflexivity|]. cbn [rstrip].
  destruct (rstrip "-" s) as [|r0 r] eqn:Er.
  - destruct (Ascii.eqb c "-") eqn:E; [reflexivity|]. cbn [rstrip]. now rewrite E.
  - cbn [rstrip] in *. now rewrite IH.
Qed.

Lemma strip_fixed s :
  all_chars letter_or_hyphen s = true ->
  strip "-" (strip "-" s) = strip "-" s.
Proof.
  intros H. unfold strip.
  rewrite (lstrip_fixed (rstrip "-" (lstrip "-" s))).
  - apply rstrip_fixed.
  - apply rstrip_first. now apply lstrip_first.
Qed.

(** *** Words on which the recursion does not end *)

Lemma letter_then_hyphen_eq a b t :
  letter_then_hyphen (String a (String b t)) =
  (is_letter a && Ascii.eqb b "-") || letter_then_hyphen (String b t).
Proof. reflexivity. Qed.

Lemma letter_then_hyphen_append_r a b :
  letter_then_hyphen a = true -> letter_then_hyphen (a ++ b) = true.
Proof.
  induction a as [|x a IH]; [discriminate|].
  destruct a as [|y t]; [discriminate|].
  change (String x (String y t) ++ b) with (String x (String y (t ++ b))).
  rewrite !letter_then_hyphen_eq. intros [H|H]%orb_true_iff.
  - now rewrite H.
  - specialize (IH H). change (String y t ++ b) with (String y (t ++ b)) in IH.
    rewrite IH. apply orb_true_r.
Qed.

Lemma letter_then_hyphen_append_l a b :
  letter_then_hyphen b = true -> letter_then_hyphen (a ++ b) = true.
Proof.
  intros H. induction a as [|x a IH]; [exact H|].
  change (String x a ++ b) with (String x (a ++ b)).
  destruct (a ++ b) as [|y t]; [discriminate|].
  rewrite letter_then_hyphen_eq, IH. apply orb_true_r.
Qed.

Lemma first_hyphen_after_letter s :
  letter_first s -> all_chars letter_or_hyphen s = true ->
  has_char "-" s = true -> letter_then_hyphen s = true.
Proof.
  unfold has_char.
  induction s as [|a s IH]; [discriminate|]. cbn [letter_first]. intros Ha.
  assert (Ascii.eqb "-" a = false) as Hne.
  { destruct (Ascii.eqb "-" a) eqn:E; [|reflexivity].
    rewrite Ascii.eqb_sym in E. apply hyphen_not_letter in E. congruence. }
  cbn [all_chars any_char]. rewrite Hne. cbn [orb].
  intros [_ Hs]%andb_true_iff Hh.
  destruct s as [|b t]; [discriminate|]. rewrite letter_then_hyphen_eq, Ha.
  destruct (Ascii.eqb b "-") eqn:E; [reflexivity|]. cbn [andb orb].
  apply IH; [|exact Hs|exact Hh].
  cbn [letter_first]. cbn [all_chars] in Hs. apply andb_true_iff in Hs as [Hb _].
  unfold letter_or_hyphen in Hb. now rewrite E, orb_false_r in Hb.
Qed.

Lemma search_from_eq p prev c s :
  search_from p prev (String c s) =
  match_here p prev (String c s) || search_from p (Some c) s.
Proof. reflexivity. Qed.

(** In a word of letters and hyphens with no hyphen between two letters, a
    hyphen after a letter is followed by a hyphen or by nothing: the pattern
    of the trailing hyphen matches there. *)
Lemma letters_hyphen_end_search s : forall prev,
  all_chars letter_or_hyphen s = true ->
  search_from re_letters_hyphen_letters prev s = false ->
  letter_then_hyphen s = true ->
  search_from re_letters_hyphen_end prev s = true.
Proof.
  induction s as [|a s IH]; intros prev Hall Hno Hlh; [discriminate|].
  destruct s as [|b t]; [discriminate|].
  apply search_from_cons in Hno as [Hhere Hno].
  cbn [all_chars] in Hall. apply andb_true_iff in Hall as [_ Hall].
  rewrite letter_then_hyphen_eq in Hlh. apply orb_true_iff in Hlh as [H|H].
  - apply andb_true_iff in H as [Ha Hb]. apply Ascii.eqb_eq in Hb. subst b.
    rewrite search_from_eq.
    assert (match_here re_letters_hyphen_end prev (String a (String "-" t)) = true)
      as ->; [|reflexivity].
    unfold re_letters_hyphen_end. cbn [match_here].
    rewrite cls_mem_letter, Ha. cbn [andb]. apply match_star_skip.
    cbn [match_here]. rewrite cls_mem_hyphen. cbn [Ascii.eqb andb word_at].
    change (Ascii.eqb "-" "-") with true. cbn [andb].
    change (is_word "-") with false. rewrite andb_true_r.
    destruct t as [|c t']; [reflexivity|]. cbn [first_char word_at].
    destruct (is_letter c) eqn:Ec.
    + now rewrite (letters_hyphen_letters_here prev a c t' Ha Ec) in Hhere.
    + cbn [all_chars] in Hall. apply andb_true_iff in Hall as [_ Hall].
      apply andb_true_iff in Hall as [Hc _].
      unfold letter_or_hyphen in Hc. rewrite Ec in Hc. apply Ascii.eqb_eq in Hc.
      now subst c.
  - rewrite search_from_eq, (IH (Some a) Hall Hno H). apply orb_true_r.
Qed.

Lemma endless_branch word :
  endless word = true ->
  isalpha word = false /\ has_char "-" word = true /\
  re_search re_not_letter_hyphen word = false /\
  re_search re_letters_hyphen_letters word = false /\
  re_search re_letters_hyphen_end word = true.
Proof.
  unfold endless.
  intros [[Hall Hno%negb_true_iff]%andb_true_iff Hh]%andb_true_iff.
  pose proof (strip_has_char _ _ Hh) as Hw.
  split; [|split; [exact Hw|split; [|split; [exact Hno|]]]].
  - destruct (isalpha word) eqn:E; [|reflexivity].
    apply isalpha_no_hyphen in E. congruence.
  - unfold re_search. now rewrite not_letter_hyphen_search, Hall.
  - apply letters_hyphen_end_search; [exact Hall|exact Hno|].
    destruct (strip_decompose word) as (pre & post & Hs & _).
    rewrite Hs. apply letter_then_hyphen_append_l, letter_then_hyphen_append_r.
    apply first_hyphen_after_letter; [|now apply strip_all_chars|exact Hh].
    unfold strip. apply rstrip_first. now apply lstrip_first.
Qed.

Lemma endless_strip word : endless word = true -> endless (strip "-" word) = true.
Proof.
  unfold endless.
  intros [[Hall Hno%negb_true_iff]%andb_true_iff Hh]%andb_true_iff.
  rewrite (strip_all_chars _ _ Hall), (strip_fixed _ Hall), Hh.
  destruct (re_search re_letters_hyphen_letters (strip "-" word)) eqn:E;
    [|reflexivity].
  apply strip_search in E; [congruence|reflexivity].
Qed.

(** On such a word every call of [nsyl] calls [nsyl] again, on a word of
    the same kind: the recursion limit is reached, whatever it is. *)
Lemma nsyl_endless d limit : forall word,
  endless word = true -> nsyl d limit word = Raise RecursionError.
Proof.
  induction limit as [|limit IH]; intros word H; [reflexivity|].
  destruct (endless_branch word H) as (Ha & Hh & H1 & H2 & H3).
  rewrite nsyl_eq, Ha, Hh, H1, H2, H3. apply IH. now apply endless_strip.
Qed.

(** *** Words on which [nsyl] returns *)

Lemma nsyl_returns d limit word :
  endless word = false ->
  (forall key phoneme_list,
     In key (lookups word) -> d !! key = Some phoneme_list ->
     sound_entry phoneme_list = true) ->
  exists n, nsyl d (S (S limit)) word = Ok n /\ 1 <= n.
Proof.
  intros He Hd. rewrite nsyl_eq. unfold lookups in Hd.
  destruct (isalpha word) eqn:Ea.
  { apply nsyl_alpha_sound_entry; [|exact Ea].
    intros phoneme_list E. apply (Hd (lower word)); [now left|exact E]. }
  destruct (has_char "-" word); [|exists 1; split; [reflexivity|lia]].
  destruct (re_search re_not_letter_hyphen word) eqn:E1;
    [exists 1; split; [reflexivity|lia]|].
  unfold re_search in E1. rewrite not_letter_hyphen_search in E1.
  apply negb_false_iff in E1. rewrite E1 in Hd.
  unfold endless in He. rewrite E1 in He. cbn [andb] in He.
  destruct (re_search re_letters_hyphen_letters word) eqn:E2.
  - destruct (for_each_sum_ge (nsyl d (S limit)) (split "-" word)) with (acc := 0)
      as (total & Ht & Hle).
    + intros piece Hin.
      pose proof (split_letters word E1) as Hall.
      rewrite List.Forall_forall in Hall.
      rewrite (nsyl_letters d limit piece (Hall _ Hin)).
      destruct (isalpha piece) eqn:Ep; [|exists 1; split; [reflexivity|lia]].
      apply nsyl_alpha_sound_entry; [|exact Ep].
      intros phoneme_list E. apply (Hd (lower piece)); [|exact E].
      apply in_map. apply filter_In. now split.
    + exists total. split; [exact Ht|].
      pose proof (split_nonempty "-" word).
      destruct (split "-" word); [contradiction|cbn [length] in Hle; lia].
  - destruct (re_search re_letters_hyphen_end word) eqn:E3;
      [|exists 1; split; [reflexivity|lia]].
    cbn [negb andb] in He, Hd.
    assert (isalpha (strip "-" word) = true) as Hs.
    { unfold isalpha. apply andb_true_iff. split.
      - apply (any_nonempty is_letter). apply strip_keeps_letters.
        apply search_first_plus in E3.
        apply (any_char_ext (cls_mem letter)); [|exact E3].
        intros c Hc. now rewrite cls_mem_letter in Hc.
      - apply letters_without_hyphen; [now apply strip_all_chars|exact He]. }
    rewrite Hs in Hd. rewrite nsyl_eq, Hs.
    apply nsyl_alpha_sound_entry; [|exact Hs].
    intros phoneme_list E. apply (Hd (lower (strip "-" word))); [now left|exact E].
Qed.

(* ===================================================================== *)
(** ** Main results *)
(* ===================================================================== *)

(** Every entry of [cmu_sample] has a stressed phoneme in each of its
    pronunciations. *)
Lemma cmu_sample_sound : sound_dictionary cmu_sample.
Proof. apply (bool_decide_unpack _). vm_compute. exact I. Qed.

(** On every text of twenty sentences or more, the sample of [smog] is the
    first nine sentences, the middle slice and the last ten sentences, and
    the score is the rounded square root of the number of its words of three
    syllables or more, plus 3. *)
Lemma smog_takes_nine d limit word_tokenize sent_tokenize input_text :
  let sentence_list := get_sentence_list sent_tokenize input_text in
  let n := Z.of_nat (length sentence_list) in
  (20 <= length sentence_list)%nat ->
  smog d limit word_tokenize sent_tokenize input_text =
  let sample :=
    join_spaces (firstn 9 sentence_list)
    ++ join_spaces (slice sentence_list (Qfloor (inject_Z n / 2 - 5))
                                        (py_round (inject_Z n / 2 - 5)))
    ++ join_spaces (skipn (length sentence_list - 10) sentence_list) in
  let* difficult := count_difficult d limit (get_words_list word_tokenize sample) in
  Ok (round_sqrt difficult + 3).
Proof.
  intros sentence_list n H. unfold smog. fold sentence_list.
  now rewrite (smog_selection_long sentence_list H).
Qed.

(** C1. On a text of twenty sentences [smog] builds its sample from the
    first nine sentences, not the first ten: a three-syllable word in the
    tenth sentence is not counted, and the score is 3 where the sample of
    the first ten, the middle slice and the last ten sentences gives 4. *)
Theorem smog_sample_omits_tenth_sentence :
  length (get_sentence_list plain_sent_tokenize twenty_sentences) = 20%nat /\
  smog cmu_sample 1000 plain_word_tokenize plain_sent_tokenize twenty_sentences
  = Ok 3 /\
  smog_first_ten cmu_sample 1000 plain_word_tokenize plain_sent_tokenize
    twenty_sentences
  = Ok 4.
Proof. repeat split; vm_compute; reflexivity. Qed.




(** C3. [nsyl] does not return on ["a--b"]: the word has letters and hyphens
    only, no hyphen stands between two letters, the pattern of the trailing
    hyphen matches at the first hyphen, and stripping hyphens from both ends
    leaves the word as it is, so the call repeats itself until the
    interpreter's recursion limit is reached, whatever that limit is. *)
Theorem nsyl_double_hyphen_recursion d limit :
  strip "-" "a--b" = "a--b" /\ nsyl d limit "a--b" = Raise RecursionError.
Proof. split; [reflexivity|apply nsyl_double_hyphen]. Qed.

(** C4, the counterexample. A dictionary entry whose only pronunciation has
    no stress-marked phoneme gives the alphabetic word the count 0. *)
Lemma nsyl_unstressed_entry_zero :
  isalpha "hmm" = true /\ nsyl unstressed_sample 1000 "hmm" = Ok 0.
Proof. split; vm_compute; reflexivity. Qed.

(** C4, amended. When each dictionary entry that the call looks up has at
    least one pronunciation, and in every pronunciation a stress-marked
    phoneme and no empty phoneme, [nsyl] returns an integer of at least 1 on
    every word, the words of letters and hyphens with no hyphen between two
    letters that keep a hyphen when the hyphens at their ends are stripped
    being left aside (they are the words of [nsyl_endless]). *)
Theorem nsyl_at_least_one d limit word :
  (2 <= limit)%nat ->
  (forall key phoneme_list,
     In key (lookups word) -> d !! key = Some phoneme_list ->
     sound_entry phoneme_list = true) ->
  endless word = false ->
  exists n, nsyl d limit word = Ok n /\ 1 <= n.
Proof.
  intros Hl Hd He. destruct limit as [|[|limit]]; [lia|lia|].
  now apply nsyl_returns.
Qed.

(** C4, instances under a dictionary that holds the unstressed entry: a word
    with two hyphens at its end, and a word with two hyphens inside and a
    hyphen between two letters. *)
Lemma nsyl_at_least_one_witness :
  mixed_sample !! "hmm" = Some [["HH"; "M"]] /\
  (exists n, nsyl mixed_sample 2 "well--" = Ok n /\ 1 <= n) /\
  (exists n, nsyl mixed_sample 2 "a--b-c" = Ok n /\ 1 <= n).
Proof.
  split; [reflexivity|]. split.
  - apply (nsyl_at_least_one mixed_sample 2 "well--"); [lia| |reflexivity].
    intros key phoneme_list Hin. vm_compute in Hin.
    destruct Hin as [<-|[]]. vm_compute. now intros [= <-].
  - apply (nsyl_at_least_one mixed_sample 2 "a--b-c"); [lia| |reflexivity].
    intros key phoneme_list Hin. vm_compute in Hin.
    destruct Hin as [<-|[<-|[<-|[]]]]; vm_compute; discriminate.
Defined.

(** C5. On a text with at least one word and one sentence, every word of
    which has a syllable count, [gfi] returns
    (words / sentences + complex / words) * 0.4, the second quotient being a
    plain fraction, where a tagged word is complex exactly when it has at
    least three syllables, its tag does not contain NNP, it has no hyphen,
    and it is not a three-syllable word with a VB tag that ends in es, ed or
    ing. *)
Theorem gfi_formula d limit word_tokenize sent_tokenize pos_tag input_text
    (syl : string -> Z) :
  let words_list := get_words_list word_tokenize input_text in
  let sentence_list := get_sentence_list sent_tokenize input_text in
  let tagged_words_list := pos_tag words_list in
  let total_words := Z.of_nat (length words_list) in
  let total_sentences := Z.of_nat (length sentence_list) in
  let complex_words :=
    Z.of_nat (length (List.filter
      (fun item => complex_word (syl (fst item)) (fst item) (snd item))
      tagged_words_list)) in
  words_list <> [] ->
  sentence_list <> [] ->
  (forall item, In item tagged_words_list ->
     nsyl d limit (fst item) = Ok (syl (fst item))) ->
  gfi d limit word_tokenize sent_tokenize pos_tag input_text =
  Ok ((inject_Z total_words / inject_Z total_sentences
       + inject_Z complex_words / inject_Z total_words) * (4 # 10))%Q.
Proof.
  intros words_list sentence_list tagged total_words total_sentences complex_words
    Hw Hs Hsyl.
  unfold gfi. fold words_list sentence_list. fold tagged.
  rewrite (gfi_loop d limit syl tagged 0 Hsyl). cbn [bind]. rewrite Z.add_0_l.
  fold complex_words total_words total_sentences.
  rewrite (truediv_ok total_words total_sentences) by now apply length_nonzero.
  cbn [bind].
  rewrite (truediv_ok complex_words total_words) by now apply length_nonzero.
  reflexivity.
Qed.

(** C5, an instance: four words, two sentences, one complex word. *)
Lemma gfi_formula_witness :
  gfi cmu_sample 1000 plain_word_tokenize plain_sent_tokenize noun_tag
    "Go caramel. Beautiful day."
  = Ok ((inject_Z 4 / inject_Z 2 + inject_Z 1 / inject_Z 4) * (4 # 10))%Q.
Proof.
  apply (gfi_formula cmu_sample 1000 plain_word_tokenize plain_sent_tokenize
           noun_tag "Go caramel. Beautiful day." sample_count).
  - discriminate.
  - discriminate.
  - intros item Hin. vm_compute in Hin.
    repeat (destruct Hin as [<-|Hin]; [vm_compute; reflexivity|]).
    contradiction.
Defined.

(** C6, the failing input. What [convert_fres] returns for 20 is the string
    ["24"], which does not compare equal to the number 24. *)
Lemma convert_fres_clamp_is_not_a_number :
  convert_fres 20 = Ok (Str "24") /\ value_eq (Str "24") (Num 24) = false.
Proof. split; reflexivity. Qed.

(** C6. Outside its table each converter returns the boundary age as a
    string literal, where its docstring announces a float and the branch
    inside the table returns a number: [convert_fres] gives ["24"] below 30
    and ["10"] above 100, [convert_ari] gives ["5"] below 1 and ["24"] above
    14, [convert_gfi] gives ["11"] below 6 and ["24"] above 17; and no
    string compares equal to a number. *)
Theorem converters_clamp_to_literals :
  (forall v, (v < 30)%Q -> convert_fres v = Ok (Str "24")) /\
  (forall v, (100 < v)%Q -> convert_fres v = Ok (Str "10")) /\
  (forall v, (v < 1)%Q -> convert_ari v = Ok (Str "5")) /\
  (forall v, (14 < v)%Q -> convert_ari v = Ok (Str "24")) /\
  (forall v, (v < 6)%Q -> convert_gfi v = Ok (Str "11")) /\
  (forall v, (17 < v)%Q -> convert_gfi v = Ok (Str "24")) /\
  (forall s q, value_eq (Str s) (Num q) = false).
Proof.
  split; [exact convert_fres_below|]. split; [exact convert_fres_above|].
  split; [exact convert_ari_below|]. split; [exact convert_ari_above|].
  split; [exact convert_gfi_below|]. split; [exact convert_gfi_above|].
  reflexivity.
Qed.

(** C6, the six values of the specification. *)
Lemma converters_clamp_to_literals_witness :
  convert_fres 20 = Ok (Str "24") /\ convert_fres 110 = Ok (Str "10") /\
  convert_ari 0 = Ok (Str "5") /\ convert_ari 20 = Ok (Str "24") /\
  convert_gfi 3 = Ok (Str "11") /\ convert_gfi 20 = Ok (Str "24").
Proof.
  destruct converters_clamp_to_literals as (F1 & F2 & A1 & A2 & G1 & G2 & _).
  split; [apply F1; reflexivity|]. split; [apply F2; reflexivity|].
  split; [apply A1; reflexivity|]. split; [apply A2; reflexivity|].
  split; [apply G1; reflexivity|apply G2; reflexivity].
Defined.

(** C7. For every word made of two or more alphabetic runs separated by
    hyphens, [nsyl] of the word is the sum of [nsyl] over the pieces of the
    split on hyphens, which are the runs. *)
Theorem nsyl_hyphen_additive d limit runs :
  (2 <= length runs)%nat ->
  Forall (fun run => isalpha run = true) runs ->
  let word := String.concat "-" runs in
  split "-" word = runs /\
  nsyl d (S (S limit)) word =
  sum_results (map (nsyl d (S (S limit))) (split "-" word)).
Proof.
  intros Hlen Hruns word. split.
  - apply split_concat; [|exact Hruns]. intros ->. cbn in Hlen. lia.
  - apply nsyl_split_sum.
    + now apply concat_letters_or_hyphens.
    + destruct runs as [|r1 [|r2 rest]]; cbn [length] in Hlen; try lia.
      inversion Hruns as [|? ? H1 Hrest]; subst.
      inversion Hrest as [|? ? H2 _]; subst.
      now apply (concat_matches _ r1 r2 rest).
Qed.

(** C7, the instance of the specification. *)
Lemma nsyl_hyphen_additive_witness :
  nsyl cmu_sample 2 "well-known" =
  sum_results [nsyl cmu_sample 2 "well"; nsyl cmu_sample 2 "known"].
Proof.
  apply (nsyl_hyphen_additive cmu_sample 0 ["well"; "known"]).
  - cbn [length]. lia.
  - repeat constructor.
Defined.

(** C8. For every alphabetic word that is not in the dictionary and is not
    one of the three named entities, [nsyl] returns the number of vowel-run
    onsets of the lower-cased word, minus 1 for a final e, plus 1 for a final
    le, plus 1 for a final sm, plus 1 for a final thm, every rule applied
    whatever the others did, and at least 1. *)
Theorem nsyl_heuristic_fallback d limit word :
  isalpha word = true ->
  d !! lower word = None ->
  named_entity word = None ->
  nsyl d (S limit) word =
  Ok (Z.max 1 (vowel_onsets (lower word)
               - suffix_rule (lower word) "e"
               + suffix_rule (lower word) "le"
               + suffix_rule (lower word) "sm"
               + suffix_rule (lower word) "thm")).
Proof.
  intros Ha Hd Hn. rewrite nsyl_eq, Ha, (nsyl_alpha_miss d word Hd), Hn.
  apply syllables_formula. now apply isalpha_nonempty.
Qed.

(** C8, an instance: two onsets, a final e and a final le. *)
Lemma nsyl_heuristic_fallback_witness :
  nsyl cmu_sample 1 "Able" = Ok (Z.max 1 (2 - 1 + 1 + 0 + 0)).
Proof.
  apply (nsyl_heuristic_fallback cmu_sample 0 "Able"); reflexivity.
Defined.

(** An alphabetic word with several pronunciations in the dictionary and no
    irregular override gets a most common count of its pronunciations, the
    one [mode] returns: the handler of [StatisticsError], with the rounded
    mean, is never reached. *)
Lemma nsyl_several_pronunciations d limit word phoneme_list syl_list :
  isalpha word = true ->
  irregular word = None ->
  d !! lower word = Some phoneme_list ->
  (1 < length phoneme_list)%nat ->
  syl_list_of phoneme_list = Ok syl_list ->
  exists m,
    mode syl_list = Ok m /\ nsyl d (S limit) word = Ok m /\
    In m syl_list /\ count_of m syl_list = max_count syl_list.
Proof.
  intros Ha Hi Hd Hlen Hs.
  rewrite nsyl_eq, Ha, (nsyl_alpha_hit d word _ _ Hd Hs), Hi.
  pose proof (syl_list_length phoneme_list [] syl_list Hs) as Hl.
  cbn [length] in Hl.
  assert ((1 <? length syl_list)%nat = true) as -> by (apply Nat.ltb_lt; lia).
  destruct (mode_returns syl_list) as [m Hm].
  { intros ->. cbn [length] in Hl. lia. }
  exists m. rewrite Hm. split; [reflexivity|]. split; [reflexivity|].
  split; [exact (mode_member _ _ Hm)|exact (mode_most_common _ _ Hm)].
Qed.

(** C9. The two pronunciations of ["family"] have 3 and 2 stressed phonemes:
    no count is the unique mode, and the mean 5/2 rounds to 2; but [mode]
    raises nothing on a tie and returns the count met first, so [nsyl]
    returns 3 and the rounded mean of the handler is not used. *)
Theorem nsyl_tie_takes_first_count :
  cmu_sample !! "family"
  = Some [["F"; "AE1"; "M"; "AH0"; "L"; "IY0"]; ["F"; "AE1"; "M"; "L"; "IY0"]] /\
  syl_list_of [["F"; "AE1"; "M"; "AH0"; "L"; "IY0"]; ["F"; "AE1"; "M"; "L"; "IY0"]]
  = Ok [3; 2] /\
  (forall m, ~ unique_mode m [3; 2]) /\
  (let* mu := mean [3; 2] in Ok (py_round mu)) = Ok 2 /\
  mode [3; 2] = Ok 3 /\
  nsyl cmu_sample 1 "family" = Ok 3.
Proof.
  split; [reflexivity|]. split; [reflexivity|].
  split; [|split; [|split]]; try (vm_compute; reflexivity).
  intros m [Hin Hlt]. destruct Hin as [<-|[<-|[]]].
  - specialize (Hlt 2 ltac:(cbn; auto) ltac:(lia)). vm_compute in Hlt. lia.
  - specialize (Hlt 3 ltac:(cbn; auto) ltac:(lia)). vm_compute in Hlt. lia.
Qed.

(** C10, the counterexample. With six sentences the start of the end slice
    is the negative index -4, which counts from the end: the slice holds the
    last four sentences, not the six. *)
Lemma end_slice_of_six_sentences :
  slice six_sentences (Z.of_nat (length six_sentences) - 10)
    (Z.of_nat (length six_sentences))
  = ["Three."; "Four."; "Five."; "Six."] /\
  slice six_sentences (Z.of_nat (length six_sentences) - 10)
    (Z.of_nat (length six_sentences))
  <> six_sentences.
Proof. split; [reflexivity|discriminate]. Qed.

(** C10, amended. [smog] divides by no count and raises nothing but what
    [nsyl] raises; when the word tokenizer gives no token for the empty
    string, [smog] returns 3 on a text with no sentence; the end slice is the
    whole sentence list when it has at most 5 or exactly 10 sentences, and
    for fewer than 10 sentences it is the list without its first
    2 * n - 10 sentences; and [smog] returns a value whenever [nsyl] returns
    one for each word of the sample. *)
Theorem smog_short_text d limit word_tokenize sent_tokenize :
  word_tokenize EmptyString = [] ->
  (forall input_text,
     get_sentence_list sent_tokenize input_text = [] ->
     smog d limit word_tokenize sent_tokenize input_text = Ok 3) /\
  (forall sentence_list : list string,
     (length sentence_list <= 5 \/ length sentence_list = 10)%nat ->
     slice sentence_list (Z.of_nat (length sentence_list) - 10)
       (Z.of_nat (length sentence_list)) = sentence_list) /\
  (forall sentence_list : list string,
     (length sentence_list < 10)%nat ->
     slice sentence_list (Z.of_nat (length sentence_list) - 10)
       (Z.of_nat (length sentence_list))
     = skipn (2 * length sentence_list - 10) sentence_list) /\
  (forall input_text e,
     smog d limit word_tokenize sent_tokenize input_text = Raise e ->
     e = IndexError \/ e = RecursionError) /\
  (forall input_text,
     (forall word,
        In word (get_words_list word_tokenize
                   (smog_selection (get_sentence_list sent_tokenize input_text))) ->
        exists n, nsyl d limit word = Ok n) ->
     exists score, smog d limit word_tokenize sent_tokenize input_text = Ok score).
Proof.
  intros Hempty. split; [|split; [|split; [|split]]].
  - intros input_text Hs. unfold smog. rewrite Hs, smog_selection_empty.
    unfold get_words_list. rewrite Hempty. reflexivity.
  - intros sentence_list. apply slice_all_short.
  - intros sentence_list. apply slice_wrapped_end.
  - intros input_text e. apply smog_error.
  - intros input_text H. unfold smog, count_difficult.
    destruct (count_difficult_loop_ok d limit _ 0 H) as [k ->].
    cbn [bind]. eexists. reflexivity.
Qed.

(** C10, an instance: a text none of whose sentences has a letter. *)
Lemma smog_short_text_witness :
  plain_word_tokenize EmptyString = [] /\
  smog cmu_sample 1000 plain_word_tokenize plain_sent_tokenize "12. 34." = Ok 3.
Proof.
  split; [reflexivity|].
  destruct (smog_short_text cmu_sample 1000 plain_word_tokenize plain_sent_tokenize
              eq_refl) as [H _].
  apply H. reflexivity.
Defined.

(* ===================================================================== *)
(** ** Further properties *)
(* ===================================================================== *)

(** *** Sentences and counts *)

Lemma letter_search prev s :
  search_from re_letter prev s = any_char is_letter s.
Proof.
  revert prev. induction s as [|c s IH]; intros prev; [reflexivity|].
  cbn [search_from any_char]. rewrite IH. unfold re_letter. cbn [match_here].
  now rewrite cls_mem_letter, andb_true_r.
Qed.

(** X1. [get_sentence_list] keeps exactly the sentences of the tokenizer
    that hold a letter, so a fragment such as ["1."] is no sentence, and the
    sentence count is at most the number of sentences of the tokenizer. *)
Theorem get_sentence_list_keeps_lettered sent_tokenize input_text :
  (forall sentence,
     In sentence (get_sentence_list sent_tokenize input_text) <->
     In sentence (sent_tokenize input_text) /\ any_char is_letter sentence = true) /\
  0 <= get_sentence_count sent_tokenize input_text
    <= Z.of_nat (length (sent_tokenize input_text)).
Proof.
  split.
  - intros sentence. unfold get_sentence_list. rewrite filter_In.
    unfold re_search. now rewrite letter_search.
  - unfold get_sentence_count, get_sentence_list.
    pose proof (filter_length_le (re_search re_letter) (sent_tokenize input_text)).
    lia.
Qed.

Lemma fold_left_lengths words_list : forall acc,
  fold_left (fun total_chars word => total_chars + Z.of_nat (String.length word))
    words_list acc
  = acc + total_length words_list.
Proof.
  unfold total_length.
  induction words_list as [|w ws IH]; intros acc; cbn [fold_left map sum_list fold_right].
  - lia.
  - rewrite IH. fold (sum_list (map (fun word => Z.of_nat (String.length word)) ws)). lia.
Qed.

Lemma truediv_zero a : truediv a 0 = Raise ZeroDivisionError.
Proof. reflexivity. Qed.

(** X2. [ari] needs no dictionary and fails in one way only: it raises
    [ZeroDivisionError] exactly when the text has no sentence or no word,
    and otherwise returns 4.71 * (characters / words)
    + 0.5 * (words / sentences) - 21.43, the characters being the sum of the
    lengths of the words. *)
Theorem ari_formula word_tokenize sent_tokenize input_text :
  let words_list := get_words_list word_tokenize input_text in
  let total_words := Z.of_nat (length words_list) in
  let total_sentences :=
    Z.of_nat (length (get_sentence_list sent_tokenize input_text)) in
  ari word_tokenize sent_tokenize input_text =
  if no_word_or_sentence total_words total_sentences
  then Raise ZeroDivisionError
  else Ok ((471 # 100) * (inject_Z (total_length words_list) / inject_Z total_words)
           + (5 # 10) * (inject_Z total_words / inject_Z total_sentences)
           - (2143 # 100))%Q.
Proof.
  intros words_list total_words total_sentences.
  unfold ari, no_word_or_sentence. fold words_list. fold total_words total_sentences.
  rewrite fold_left_lengths, Z.add_0_l.
  destruct (Z.eqb_spec total_sentences 0) as [->|Hs]; [reflexivity|].
  rewrite (truediv_ok _ _ Hs). cbn [bind orb].
  destruct (Z.eqb_spec total_words 0) as [->|Hw]; [reflexivity|].
  now rewrite (truediv_ok _ _ Hw).
Qed.

Lemma syllable_loop d limit (syl : string -> Z) words_list : forall acc,
  (forall word, In word words_list -> nsyl d limit word = Ok (syl word)) ->
  for_each words_list
    (fun total_syllables word =>
       let* n := nsyl d limit word in Ok (total_syllables + n))
    acc
  = Ok (acc + sum_list (map syl words_list)).
Proof.
  induction words_list as [|w ws IH]; intros acc H.
  - cbn. f_equal. lia.
  - cbn [for_each map]. rewrite (H w ltac:(now left)). cbn [bind].
    rewrite IH by (intros x Hx; apply H; now right).
    cbn [sum_list fold_right]. fold (sum_list (map syl ws)). f_equal. lia.
Qed.

(** X3. When [nsyl] returns a count for every word of the text, [fres]
    raises [ZeroDivisionError] if the text has no sentence or no word, and
    otherwise returns 206.835 - 1.015 * (words / sentences)
    - 84.6 * (syllables / words), the syllables being the sum of the counts
    of the words. *)
Theorem fres_formula d limit word_tokenize sent_tokenize input_text
    (syl : string -> Z) :
  let words_list := get_words_list word_tokenize input_text in
  let total_words := Z.of_nat (length words_list) in
  let total_sentences :=
    Z.of_nat (length (get_sentence_list sent_tokenize input_text)) in
  (forall word, In word words_list -> nsyl d limit word = Ok (syl word)) ->
  fres d limit word_tokenize sent_tokenize input_text =
  if no_word_or_sentence total_words total_sentences
  then Raise ZeroDivisionError
  else Ok ((206835 # 1000)
           - (1015 # 1000) * (inject_Z total_words / inject_Z total_sentences)
           - (846 # 10)
             * (inject_Z (sum_list (map syl words_list)) / inject_Z total_words))%Q.
Proof.
  intros words_list total_words total_sentences H.
  unfold fres, no_word_or_sentence. fold words_list. fold total_words total_sentences.
  rewrite (syllable_loop d limit syl words_list 0 H). cbn [bind]. rewrite Z.add_0_l.
  destruct (Z.eqb_spec total_sentences 0) as [->|Hs]; [reflexivity|].
  rewrite (truediv_ok _ _ Hs). cbn [bind orb].
  destruct (Z.eqb_spec total_words 0) as [->|Hw]; [reflexivity|].
  now rewrite (truediv_ok _ _ Hw).
Qed.

(** X3, an instance: four words of 1, 2, 3 and 1 syllables in two
    sentences. *)
Lemma fres_formula_witness :
  fres cmu_sample 1000 plain_word_tokenize plain_sent_tokenize
    "Go caramel. Beautiful day."
  = Ok ((206835 # 1000) - (1015 # 1000) * (inject_Z 4 / inject_Z 2)
        - (846 # 10) * (inject_Z 7 / inject_Z 4))%Q.
Proof.
  apply (fres_formula cmu_sample 1000 plain_word_tokenize plain_sent_tokenize
           "Go caramel. Beautiful day." sample_count).
  intros word Hin. vm_compute in Hin.
  repeat (destruct Hin as [<-|Hin]; [vm_compute; reflexivity|]).
  contradiction.
Defined.

(** *** Gunning fog on empty and on tagged texts *)

(** X4. When [nsyl] returns a count for every tagged word, [gfi] raises
    [ZeroDivisionError] on a text with no sentence or no word. *)
Theorem gfi_zero_division d limit word_tokenize sent_tokenize pos_tag input_text
    (syl : string -> Z) :
  let words_list := get_words_list word_tokenize input_text in
  let sentence_list := get_sentence_list sent_tokenize input_text in
  (forall item, In item (pos_tag words_list) ->
     nsyl d limit (fst item) = Ok (syl (fst item))) ->
  words_list = [] \/ sentence_list = [] ->
  gfi d limit word_tokenize sent_tokenize pos_tag input_text
  = Raise ZeroDivisionError.
Proof.
  intros words_list sentence_list Hsyl Hempty.
  unfold gfi. fold words_list sentence_list.
  rewrite (gfi_loop d limit syl _ 0 Hsyl). cbn [bind].
  destruct (Z.eqb_spec (Z.of_nat (length sentence_list)) 0) as [Hs|Hs].
  - now rewrite Hs.
  - rewrite (truediv_ok _ _ Hs). cbn [bind].
    destruct Hempty as [Hw|Hs']; [now rewrite Hw|].
    rewrite Hs' in Hs. contradiction.
Qed.

(** X4, an instance: a text none of whose sentences has a letter. *)
Lemma gfi_zero_division_witness :
  gfi cmu_sample 1000 plain_word_tokenize plain_sent_tokenize noun_tag "12. 34."
  = Raise ZeroDivisionError.
Proof.
  apply (gfi_zero_division cmu_sample 1000 plain_word_tokenize plain_sent_tokenize
           noun_tag "12. 34." sample_count).
  - intros item Hin. vm_compute in Hin.
    repeat (destruct Hin as [<-|Hin]; [vm_compute; reflexivity|]).
    contradiction.
  - right. reflexivity.
Defined.

(** X5. When the tagger returns one item for each word, the share of
    complex words is a fraction between 0 and 1, so [gfi] lies between
    0.4 * (words / sentences) and 0.4 * (words / sentences + 1): the complex
    words add at most 0.4 to the index. *)
Theorem gfi_bounds d limit word_tokenize sent_tokenize pos_tag input_text
    (syl : string -> Z) :
  let words_list := get_words_list word_tokenize input_text in
  let sentence_list := get_sentence_list sent_tokenize input_text in
  let average :=
    (inject_Z (Z.of_nat (length words_list))
     / inject_Z (Z.of_nat (length sentence_list)))%Q in
  words_list <> [] ->
  sentence_list <> [] ->
  length (pos_tag words_list) = length words_list ->
  (forall item, In item (pos_tag words_list) ->
     nsyl d limit (fst item) = Ok (syl (fst item))) ->
  exists index,
    gfi d limit word_tokenize sent_tokenize pos_tag input_text = Ok index /\
    (average * (4 # 10) <= index)%Q /\ (index <= (average + 1) * (4 # 10))%Q.
Proof.
  intros words_list sentence_list average Hw Hs Hlen Hsyl.
  unfold gfi. fold words_list sentence_list.
  rewrite (gfi_loop d limit syl _ 0 Hsyl). cbn [bind]. rewrite Z.add_0_l.
  rewrite (truediv_ok _ _ (length_nonzero _ Hs)). cbn [bind].
  rewrite (truediv_ok _ _ (length_nonzero _ Hw)). cbn [bind].
  fold average. eexists. split; [reflexivity|].
  set (complex :=
         List.filter (fun item => complex_word (syl (fst item)) (fst item) (snd item))
           (pos_tag words_list)).
  pose proof (filter_length_le
                (fun item => complex_word (syl (fst item)) (fst item) (snd item))
                (pos_tag words_list)) as Hle.
  fold complex in Hle. rewrite Hlen in Hle.
  pose proof (length_nonzero _ Hw) as Hnz.
  set (c := Z.of_nat (length complex)) in *.
  set (w := Z.of_nat (length words_list)) in *.
  assert (0 < w) as Hwpos by lia.
  assert (0 <= inject_Z c / inject_Z w)%Q as H0.
  { apply Qle_shift_div_l.
    - change 0%Q with (inject_Z 0). now rewrite <- Zlt_Qlt.
    - rewrite Qmult_0_l. change 0%Q with (inject_Z 0). rewrite <- Zle_Qle.
      subst c. lia. }
  assert (inject_Z c / inject_Z w <= 1)%Q as H1.
  { apply Qle_shift_div_r.
    - change 0%Q with (inject_Z 0). now rewrite <- Zlt_Qlt.
    - rewrite Qmult_1_l. rewrite <- Zle_Qle. subst c w. lia. }
  split; lra.
Qed.

(** X5, an instance. *)
Lemma gfi_bounds_witness :
  exists index,
    gfi cmu_sample 1000 plain_word_tokenize plain_sent_tokenize noun_tag
      "Go caramel. Beautiful day." = Ok index /\
    (inject_Z 4 / inject_Z 2 * (4 # 10) <= index)%Q /\
    (index <= (inject_Z 4 / inject_Z 2 + 1) * (4 # 10))%Q.
Proof.
  apply (gfi_bounds cmu_sample 1000 plain_word_tokenize plain_sent_tokenize
           noun_tag "Go caramel. Beautiful day." sample_count).
  - discriminate.
  - discriminate.
  - reflexivity.
  - intros item Hin. vm_compute in Hin.
    repeat (destruct Hin as [<-|Hin]; [vm_compute; reflexivity|]).
    contradiction.
Defined.

(** *** Counting words of three syllables *)

Lemma difficult_loop d limit (syl : string -> Z) words_list : forall acc,
  (forall word, In word words_list -> nsyl d limit word = Ok (syl word)) ->
  for_each words_list
    (fun difficult_words word =>
       let* n := nsyl d limit word in
       Ok (if 3 <=? n then difficult_words + 1 else difficult_words))
    acc
  = Ok (acc + Z.of_nat (length (List.filter (fun word => 3 <=? syl word) words_list))).
Proof.
  induction words_list as [|w ws IH]; intros acc H.
  - cbn. f_equal. lia.
  - cbn [for_each List.filter]. rewrite (H w ltac:(now left)). cbn [bind].
    rewrite IH by (intros x Hx; apply H; now right).
    destruct (3 <=? syl w); cbn [length]; f_equal; lia.
Qed.

(** X6. When [nsyl] returns a count for every word of the text,
    [get_complex_words_count] returns the number of words of three syllables
    or more, which is at most [get_word_count]. *)
Theorem complex_words_count d limit word_tokenize input_text (syl : string -> Z) :
  let words_list := get_words_list word_tokenize input_text in
  let count :=
    Z.of_nat (length (List.filter (fun word => 3 <=? syl word) words_list)) in
  (forall word, In word words_list -> nsyl d limit word = Ok (syl word)) ->
  get_complex_words_count d limit word_tokenize input_text = Ok count /\
  0 <= count <= get_word_count word_tokenize input_text.
Proof.
  intros words_list count H. split.
  - unfold get_complex_words_count, count_difficult. fold words_list.
    now rewrite (difficult_loop d limit syl words_list 0 H).
  - unfold get_word_count. fold words_list. subst count.
    pose proof (filter_length_le (fun word => 3 <=? syl word) words_list). lia.
Qed.

(** X6, an instance: one word of three syllables among four. *)
Lemma complex_words_count_witness :
  get_complex_words_count cmu_sample 1000 plain_word_tokenize
    "Go caramel. Beautiful day." = Ok 1 /\
  0 <= 1 <= get_word_count plain_word_tokenize "Go caramel. Beautiful day.".
Proof.
  apply (complex_words_count cmu_sample 1000 plain_word_tokenize
           "Go caramel. Beautiful day." sample_count).
  intros word Hin. vm_compute in Hin.
  repeat (destruct Hin as [<-|Hin]; [vm_compute; reflexivity|]).
  contradiction.
Defined.

(** *** The sample and the score of SMOG *)

Lemma difficult_loop_nonneg d limit words_list : forall acc k,
  for_each words_list
    (fun difficult_words word =>
       let* n := nsyl d limit word in
       Ok (if 3 <=? n then difficult_words + 1 else difficult_words))
    acc = Ok k ->
  acc <= k.
Proof.
  induction words_list as [|w ws IH]; intros acc k.
  - cbn. intros [= <-]. lia.
  - cbn [for_each]. destruct (nsyl d limit w) as [n|e]; cbn [bind]; [|discriminate].
    intros H. apply IH in H. destruct (3 <=? n); lia.
Qed.

Lemma round_sqrt_zero n : 0 <= n -> (round_sqrt n = 0 <-> n = 0).
Proof.
  intros Hn. split; [|intros ->; reflexivity].
  pose proof (round_sqrt_nearest n Hn) as (H0 & H1 & _). cbv zeta in *.
  intros E. rewrite E in H1. lia.
Qed.

(** X7. Whenever [smog] returns, the score is at least 3, and it is 3
    exactly when no word of the sample has three syllables or more. *)
Theorem smog_at_least_three d limit word_tokenize sent_tokenize input_text score :
  smog d limit word_tokenize sent_tokenize input_text = Ok score ->
  3 <= score /\
  (score = 3 <->
   count_difficult d limit
     (get_words_list word_tokenize
        (smog_selection (get_sentence_list sent_tokenize input_text)))
   = Ok 0).
Proof.
  unfold smog.
  destruct (count_difficult d limit _) as [k|e] eqn:E; cbn [bind]; [|discriminate].
  intros [= <-]. pose proof (difficult_loop_nonneg _ _ _ _ _ E) as Hk.
  pose proof (round_sqrt_nearest k Hk) as (H0 & _). cbv zeta in H0.
  pose proof (round_sqrt_zero k Hk) as Hz.
  split; [lia|]. split.
  - intros H. f_equal. apply Hz. lia.
  - intros [= ->]. reflexivity.
Qed.

(** X7, an instance. *)
Lemma smog_at_least_three_witness :
  3 <= 3 /\
  (3 = 3 <->
   count_difficult cmu_sample 1000
     (get_words_list plain_word_tokenize
        (smog_selection (get_sentence_list plain_sent_tokenize twenty_sentences)))
   = Ok 0).
Proof.
  apply (smog_at_least_three cmu_sample 1000 plain_word_tokenize plain_sent_tokenize
           twenty_sentences 3).
  vm_compute. reflexivity.
Defined.

Lemma slice_length_le {A : Type} (xs : list A) (i j : Z) :
  i <= j <= i + 1 -> (length (slice xs i j) <= 1)%nat.
Proof.
  intros H. unfold slice. rewrite length_firstn.
  set (n := Z.of_nat (length xs)).
  assert (slice_bound n j - slice_bound n i <= 1) as Hb.
  { unfold slice_bound. subst n.
    destruct (Z.ltb_spec i 0), (Z.ltb_spec j 0); lia. }
  lia.
Qed.

Lemma slice_empty {A : Type} (xs : list A) (i : Z) : slice xs i i = [].
Proof. unfold slice. now rewrite Z.sub_diag. Qed.

Lemma slice_single {A : Type} (xs : list A) (i : Z) :
  0 <= i < Z.of_nat (length xs) ->
  exists x, nth_error xs (Z.to_nat i) = Some x /\ slice xs i (i + 1) = [x].
Proof.
  intros H. unfold slice, slice_bound.
  destruct (Z.ltb_spec i 0); [lia|]. destruct (Z.ltb_spec (i + 1) 0); [lia|].
  rewrite !Z.min_l by lia.
  replace (Z.to_nat (i + 1 - i)) with 1%nat by lia.
  destruct (nth_error xs (Z.to_nat i)) as [x|] eqn:E.
  - exists x. split; [reflexivity|].
    apply nth_error_split in E as (l1 & l2 & -> & Hl).
    rewrite <- Hl, skipn_app, skipn_all, Nat.sub_diag. reflexivity.
  - apply nth_error_None in E. lia.
Qed.

(** The bounds of the middle slice, in integers: the quotient is the floored
    one. *)
Lemma middle_floor n : Qfloor (inject_Z n / 2 - 5) = (n - 10) / 2.
Proof.
  unfold Qfloor, Qminus, Qplus, Qopp, Qdiv, Qmult, Qinv, inject_Z.
  cbn [Qnum Qden]. f_equal; lia.
Qed.

Lemma middle_round n :
  py_round (inject_Z n / 2 - 5) =
  (n - 10) / 2 + (if Z.odd n && Z.odd ((n - 10) / 2) then 1 else 0).
Proof.
  unfold py_round. rewrite middle_floor.
  set (k := (n - 10) / 2).
  pose proof (Z.div_mod (n - 10) 2 ltac:(lia)) as Hdm. fold k in Hdm.
  pose proof (Z.mod_pos_bound (n - 10) 2 ltac:(lia)) as Hb.
  set (r := (n - 10) mod 2) in *.
  assert (n = 2 * k + r + 10) as Hn by lia.
  assert (inject_Z n == 2 * inject_Z k + inject_Z r + 10)%Q as HQ.
  { rewrite Hn at 1. rewrite !inject_Z_plus, inject_Z_mult. reflexivity. }
  assert (Z.odd n = Z.odd r) as Hodd.
  { rewrite Hn. replace (2 * k + r + 10) with (r + 2 * (k + 5)) by lia.
    now rewrite Z.odd_add_mul_2. }
  rewrite Hodd.
  unfold Qdiv. change (/ 2)%Q with (1 # 2)%Q.
  assert (r = 0 \/ r = 1) as [Hr|Hr] by lia; rewrite Hr in *; cbn [Z.odd andb].
  - destruct (inject_Z n * (1 # 2) - 5 - inject_Z k ?= 1 # 2)%Q eqn:E.
    + apply Qeq_alt in E. exfalso. change (inject_Z 0) with 0%Q in HQ. lra.
    + lia.
    + apply Qgt_alt in E. exfalso. change (inject_Z 0) with 0%Q in HQ. lra.
  - destruct (inject_Z n * (1 # 2) - 5 - inject_Z k ?= 1 # 2)%Q eqn:E.
    + rewrite <- (Z.negb_even k). destruct (Z.even k); cbn [negb]; lia.
    + apply Qlt_alt in E. exfalso. change (inject_Z 1) with 1%Q in HQ. lra.
    + apply Qgt_alt in E. exfalso. change (inject_Z 1) with 1%Q in HQ. lra.
Qed.

(** X8. The middle group of the sample of [smog] is never more than one
    sentence: it is empty when the number of sentences is even, and for ten
    sentences or more it is the single sentence of index (n - 11) / 2 when
    n leaves the remainder 1 in the division by 4, and empty otherwise. *)
Theorem smog_middle_slice (sentence_list : list string) :
  let n := Z.of_nat (length sentence_list) in
  let middle :=
    slice sentence_list (Qfloor (inject_Z n / 2 - 5))
      (py_round (inject_Z n / 2 - 5)) in
  (length middle <= 1)%nat /\
  (Z.even n = true -> middle = []) /\
  (10 <= n -> n mod 4 = 1 ->
     exists sentence,
       nth_error sentence_list (Z.to_nat ((n - 11) / 2)) = Some sentence /\
       middle = [sentence]) /\
  (10 <= n -> n mod 4 <> 1 -> middle = []).
Proof.
  intros n middle. subst middle. rewrite middle_floor, middle_round.
  set (k := (n - 10) / 2).
  pose proof (Z.div_mod (n - 10) 2 ltac:(lia)) as Hdm. fold k in Hdm.
  pose proof (Z.mod_pos_bound (n - 10) 2 ltac:(lia)) as Hb.
  set (r := (n - 10) mod 2) in *.
  assert (Z.odd n = Z.odd r) as Hodd.
  { replace n with (r + 2 * (k + 5)) at 1 by lia. now rewrite Z.odd_add_mul_2. }
  clearbody k r.
  split; [|split; [|split]].
  - apply slice_length_le. destruct (Z.odd n && Z.odd k); lia.
  - intros He. rewrite <- Z.negb_odd in He. apply negb_true_iff in He.
    rewrite He. cbn [andb]. rewrite Z.add_0_r. apply slice_empty.
  - intros Hn Hmod.
    pose proof (Z.div_mod n 4 ltac:(lia)) as H4. rewrite Hmod in H4.
    set (q := n / 4) in *.
    assert (k = 2 * q - 5 /\ r = 1) as [Hk Hr].
    { clearbody q n. lia. }
    assert (Z.odd n && Z.odd k = true) as ->.
    { rewrite Hodd, Hr, Hk. cbn [Z.odd andb].
      replace (2 * q - 5) with (1 + 2 * (q - 3)) by lia.
      now rewrite Z.odd_add_mul_2. }
    assert ((n - 11) / 2 = k) as ->.
    { symmetry. apply (Z.div_unique _ _ _ 0); clearbody q n; lia. }
    apply slice_single. clearbody q. subst n. lia.
  - intros Hn Hmod.
    assert (Z.odd n && Z.odd k = false) as ->; [|rewrite Z.add_0_r; apply slice_empty].
    destruct (Z.odd n) eqn:En; [|reflexivity]. cbn [andb].
    assert (r = 1) as Hr.
    { assert (r = 0 \/ r = 1) as [Hr|Hr] by lia; [|exact Hr].
      rewrite Hr in Hodd. discriminate. }
    pose proof (Z.div_mod n 4 ltac:(lia)) as H4.
    pose proof (Z.mod_pos_bound n 4 ltac:(lia)) as Hb4.
    set (q := n / 4) in *. set (m := n mod 4) in *.
    assert (k = 2 * (q - 2)) as -> by (clearbody q m n; lia).
    rewrite <- Z.negb_even, Z.even_mul. reflexivity.
Qed.

(** X8, an instance: with 21 sentences the middle group is the sentence of
    index 5. *)
Lemma smog_middle_slice_witness :
  exists sentence,
    nth_error (repeat "Go." 21) (Z.to_nat ((21 - 11) / 2)) = Some sentence /\
    slice (repeat "Go." 21) (Qfloor (inject_Z 21 / 2 - 5))
      (py_round (inject_Z 21 / 2 - 5)) = [sentence].
Proof.
  destruct (smog_middle_slice (repeat "Go." 21)) as (_ & _ & H & _).
  apply H; [vm_compute; discriminate|reflexivity].
Defined.

(** *** More on the syllable estimator *)

Lemma lower_char_letter c : is_letter (lower_char c) = is_letter c.
Proof. destruct c as [[] [] [] [] [] [] [] []]; reflexivity. Qed.

Lemma lower_char_idempotent c : lower_char (lower_char c) = lower_char c.
Proof. destruct c as [[] [] [] [] [] [] [] []]; reflexivity. Qed.

Lemma lower_idempotent s : lower (lower s) = lower s.
Proof.
  induction s as [|c s IH]; [reflexivity|].
  cbn [lower]. now rewrite lower_char_idempotent, IH.
Qed.

Lemma isalpha_lower s : isalpha (lower s) = isalpha s.
Proof.
  unfold isalpha. f_equal; [now destruct s|].
  induction s as [|c s IH]; [reflexivity|].
  cbn [lower all_chars]. now rewrite lower_char_letter, IH.
Qed.

(** X9. [syllables] raises [IndexError] on the empty string and returns
    a count of at least 1 on every other string, alphabetic or not; the count
    depends on the lower-cased string only. *)
Theorem syllables_total word :
  (word = EmptyString -> syllables word = Raise IndexError) /\
  (word <> EmptyString -> exists n, syllables word = Ok n /\ 1 <= n) /\
  syllables (lower word) = syllables word.
Proof.
  split; [|split].
  - intros ->. reflexivity.
  - intros H. apply syllables_at_least_one. now destruct word.
  - unfold syllables. now rewrite lower_idempotent.
Qed.

(** X9, an instance: a word without a, e, i, o or u. *)
Lemma syllables_total_witness : exists n, syllables "Rhythm" = Ok n /\ 1 <= n.
Proof.
  destruct (syllables_total "Rhythm") as (_ & H & _). apply H. discriminate.
Defined.

(** X10. Apart from the three irregular words, [nsyl] does not see the
    case of an alphabetic word: two alphabetic words with the same lower-case
    form and no irregular override have the same result. *)
Theorem nsyl_ignores_case d limit word word' :
  isalpha word = true ->
  lower word' = lower word ->
  irregular word = None ->
  irregular word' = None ->
  nsyl d limit word' = nsyl d limit word.
Proof.
  intros Ha Hl Hi Hi'. destruct limit as [|limit]; [reflexivity|].
  assert (isalpha word' = true) as Ha'.
  { now rewrite <- isalpha_lower, Hl, isalpha_lower. }
  rewrite !nsyl_eq, Ha, Ha'.
  unfold irregular in Hi, Hi'.
  destruct (String.eqb word "US") eqn:E1; [discriminate|].
  destruct (String.eqb word "us") eqn:E2; [discriminate|].
  destruct (String.eqb word "separate") eqn:E3; [discriminate|].
  destruct (String.eqb word' "US") eqn:E1'; [discriminate|].
  destruct (String.eqb word' "us") eqn:E2'; [discriminate|].
  destruct (String.eqb word' "separate") eqn:E3'; [discriminate|].
  unfold nsyl_alpha, syllables. rewrite Hl, E1, E2, E3, E1', E2', E3'.
  reflexivity.
Qed.

(** X10, an instance: a capitalised word. *)
Lemma nsyl_ignores_case_witness :
  nsyl cmu_sample 1 "Family" = nsyl cmu_sample 1 "family".
Proof.
  apply (nsyl_ignores_case cmu_sample 1 "family" "Family"); reflexivity.
Defined.

(** X11. The irregular counts need a dictionary entry: when the dictionary
    holds the lower-cased word with well-formed pronunciations, ["US"] has
    2 syllables, ["us"] 1 and ["separate"] 2, whatever the entry says; when
    it does not, the heuristic gives 1 to ["US"] and ["us"] and 3 to
    ["separate"]. *)
Theorem irregular_words_need_entry d limit :
  (forall phoneme_list syl_list,
     d !! "us" = Some phoneme_list -> syl_list_of phoneme_list = Ok syl_list ->
     nsyl d (S limit) "US" = Ok 2 /\ nsyl d (S limit) "us" = Ok 1) /\
  (forall phoneme_list syl_list,
     d !! "separate" = Some phoneme_list -> syl_list_of phoneme_list = Ok syl_list ->
     nsyl d (S limit) "separate" = Ok 2) /\
  (d !! "us" = None ->
     nsyl d (S limit) "US" = Ok 1 /\ nsyl d (S limit) "us" = Ok 1) /\
  (d !! "separate" = None -> nsyl d (S limit) "separate" = Ok 3).
Proof.
  split; [|split; [|split]].
  - intros pl sl Hd Hs. split; rewrite nsyl_eq; cbn [isalpha];
      change (isalpha _) with true; cbv iota.
    + now rewrite (nsyl_alpha_hit d "US" pl sl Hd Hs).
    + now rewrite (nsyl_alpha_hit d "us" pl sl Hd Hs).
  - intros pl sl Hd Hs. rewrite nsyl_eq. change (isalpha _) with true. cbv iota.
    now rewrite (nsyl_alpha_hit d "separate" pl sl Hd Hs).
  - intros Hd. split; rewrite nsyl_eq; change (isalpha _) with true; cbv iota.
    + now rewrite (nsyl_alpha_miss d "US" Hd).
    + now rewrite (nsyl_alpha_miss d "us" Hd).
  - intros Hd. rewrite nsyl_eq. change (isalpha _) with true. cbv iota.
    now rewrite (nsyl_alpha_miss d "separate" Hd).
Qed.

(** X11, an instance: a dictionary without the two words. *)
Lemma irregular_words_need_entry_witness :
  nsyl cmu_sample 1 "US" = Ok 1 /\ nsyl cmu_sample 1 "separate" = Ok 3.
Proof.
  destruct (irregular_words_need_entry cmu_sample 0) as (_ & _ & Hus & Hsep).
  split; [apply Hus; reflexivity|apply Hsep; reflexivity].
Defined.

(** X12. The named entities are recognised in any case, and only when the
    dictionary has no entry: a word whose lower-case form is ["facebook"],
    ["thefacebook"] or ["tumblr"] and which the dictionary lacks has 2, 3
    and 2 syllables. *)
Theorem named_entities_any_case d limit word :
  d !! lower word = None ->
  (lower word = "facebook" -> nsyl d (S limit) word = Ok 2) /\
  (lower word = "thefacebook" -> nsyl d (S limit) word = Ok 3) /\
  (lower word = "tumblr" -> nsyl d (S limit) word = Ok 2).
Proof.
  intros Hd.
  assert (forall name n,
            isalpha name = true -> named_entity name = Some n ->
            lower name = name ->
            lower word = name -> nsyl d (S limit) word = Ok n) as H.
  { intros name n Hname Hn Hlow Hl. rewrite nsyl_eq.
    rewrite <- isalpha_lower, Hl, Hname, (nsyl_alpha_miss d word Hd).
    unfold named_entity in *. rewrite Hl. rewrite Hlow in Hn. now rewrite Hn. }
  split; [|split]; intros Hl.
  - now apply (H "facebook").
  - now apply (H "thefacebook").
  - now apply (H "tumblr").
Qed.

(** X12, an instance: mixed case. *)
Lemma named_entities_any_case_witness :
  nsyl cmu_sample 1 "FaceBook" = Ok 2 /\ nsyl cmu_sample 1 "Tumblr" = Ok 2.
Proof.
  split.
  - destruct (named_entities_any_case cmu_sample 0 "FaceBook" eq_refl) as (H & _).
    apply H. reflexivity.
  - destruct (named_entities_any_case cmu_sample 0 "Tumblr" eq_refl) as (_ & _ & H).
    apply H. reflexivity.
Defined.

Lemma letters_are_letters_or_hyphens s :
  all_chars is_letter s = true -> all_chars letter_or_hyphen s = true.
Proof.
  apply all_chars_ext. intros c Hc. unfold letter_or_hyphen. now rewrite Hc.
Qed.

(** X13. A token with an ASCII character that is neither a letter nor a
    hyphen (a digit, an apostrophe, a dot, a slash) counts one syllable,
    whatever the dictionary holds: decimals, contractions and URLs are one
    syllable each. *)
Theorem nsyl_other_character d limit word :
  any_char other_ascii word = true ->
  nsyl d (S limit) word = Ok 1.
Proof.
  intros Hother.
  assert (all_chars letter_or_hyphen word = false) as H.
  { induction word as [|c w IH]; [discriminate|].
    cbn [any_char all_chars] in *. apply orb_true_iff in Hother as [Hc|Hw].
    - unfold other_ascii in Hc. apply andb_true_iff in Hc as [_ Hc].
      apply negb_true_iff in Hc. now rewrite Hc.
    - rewrite (IH Hw). apply andb_false_r. }
  rewrite nsyl_eq.
  assert (isalpha word = false) as ->.
  { destruct (isalpha word) eqn:E; [|reflexivity].
    unfold isalpha in E. apply andb_true_iff in E as [_ E].
    apply letters_are_letters_or_hyphens in E. congruence. }
  destruct (has_char "-" word); [|reflexivity].
  unfold re_search. now rewrite not_letter_hyphen_search, H.
Qed.

(** X13, instances: a contraction and a word with a digit and a hyphen. *)
Lemma nsyl_other_character_witness :
  nsyl cmu_sample 1 "wouldn't" = Ok 1 /\ nsyl cmu_sample 1 "covid-19" = Ok 1.
Proof.
  split; apply (nsyl_other_character cmu_sample 0); reflexivity.
Defined.

(** *** Hyphens at the ends of a word *)

Lemma hyphen_then_letter_eq a b t :
  hyphen_then_letter (String a (String b t)) =
  (Ascii.eqb a "-" && is_letter b) || hyphen_then_letter (String b t).
Proof. reflexivity. Qed.

Lemma star_letter_then_hyphen p s : forall x prev,
  is_letter x = true ->
  match_star letter (match_here (One hyphen :: p)) prev s = true ->
  letter_then_hyphen (String x s) = true.
Proof.
  induction s as [|y s IH]; intros x prev Hx; [discriminate|].
  cbn [match_star match_here]. rewrite letter_then_hyphen_eq.
  rewrite cls_mem_hyphen, cls_mem_letter, Hx. cbn [andb].
  intros [H|H]%orb_true_iff.
  - apply andb_true_iff in H as [-> _]. reflexivity.
  - apply andb_true_iff in H as [Hy H]. rewrite (IH y (Some y) Hy H).
    apply orb_true_r.
Qed.

Lemma search_letter_then_hyphen p s : forall prev,
  search_from (Plus letter :: One hyphen :: p) prev s = true ->
  letter_then_hyphen s = true.
Proof.
  induction s as [|x s IH]; intros prev; [discriminate|].
  cbn [search_from match_here]. rewrite cls_mem_letter.
  intros [H|H]%orb_true_iff.
  - apply andb_true_iff in H as [Hx H].
    exact (star_letter_then_hyphen _ _ _ _ Hx H).
  - specialize (IH _ H). destruct s as [|y s]; [discriminate|].
    rewrite letter_then_hyphen_eq, IH. apply orb_true_r.
Qed.

Lemma star_hyphen_then_letter s : forall prev,
  match_star letter (match_here [One hyphen; Plus letter]) prev s = true ->
  hyphen_then_letter s = true.
Proof.
  induction s as [|y s IH]; intros prev; [discriminate|].
  cbn [match_star match_here]. rewrite cls_mem_hyphen, cls_mem_letter.
  intros [H|H]%orb_true_iff.
  - apply andb_true_iff in H as [Hy H]. destruct s as [|z s]; [discriminate|].
    rewrite cls_mem_letter in H. apply andb_true_iff in H as [Hz _].
    rewrite hyphen_then_letter_eq. now rewrite Hy, Hz.
  - apply andb_true_iff in H as [_ H]. specialize (IH _ H).
    destruct s as [|z s]; [discriminate|].
    rewrite hyphen_then_letter_eq, IH. apply orb_true_r.
Qed.

Lemma search_hyphen_then_letter s : forall prev,
  search_from re_letters_hyphen_letters prev s = true ->
  hyphen_then_letter s = true.
Proof.
  unfold re_letters_hyphen_letters.
  induction s as [|x s IH]; intros prev; [discriminate|].
  cbn [search_from match_here].
  assert (hyphen_then_letter s = true -> hyphen_then_letter (String x s) = true) as Hcons.
  { destruct s as [|y s]; [discriminate|]. rewrite hyphen_then_letter_eq.
    intros ->. apply orb_true_r. }
  intros [H|H]%orb_true_iff; apply Hcons.
  - apply andb_true_iff in H as [_ H]. exact (star_hyphen_then_letter _ _ H).
  - exact (IH _ H).
Qed.

Lemma no_hyphen_then_letter_at_end w :
  all_chars is_letter w = true ->
  hyphen_then_letter (w ++ String "-" EmptyString) = false.
Proof.
  induction w as [|c w IH]; intros H; [reflexivity|].
  cbn [all_chars] in H. apply andb_true_iff in H as [Hc Hw].
  change (String c w ++ String "-" EmptyString)
    with (String c (w ++ String "-" EmptyString)).
  specialize (IH Hw).
  destruct (w ++ String "-" EmptyString) as [|y t] eqn:E; [reflexivity|].
  rewrite hyphen_then_letter_eq, IH, orb_false_r.
  destruct (Ascii.eqb c "-") eqn:Ec; [|reflexivity].
  apply hyphen_not_letter in Ec. congruence.
Qed.

Lemma no_letter_then_hyphen_letters w :
  all_chars is_letter w = true -> letter_then_hyphen w = false.
Proof.
  induction w as [|c w IH]; intros H; [reflexivity|].
  cbn [all_chars] in H. apply andb_true_iff in H as [Hc Hw].
  specialize (IH Hw). destruct w as [|y t]; [reflexivity|].
  rewrite letter_then_hyphen_eq, IH, orb_false_r.
  cbn [all_chars] in Hw. apply andb_true_iff in Hw as [Hy _].
  destruct (Ascii.eqb y "-") eqn:Ey; [|apply andb_false_r].
  apply hyphen_not_letter in Ey. congruence.
Qed.

Lemma rstrip_trailing_hyphen w :
  isalpha w = true -> rstrip "-" (w ++ String "-" EmptyString) = w.
Proof.
  unfold isalpha. intros [Hne Hall]%andb_true_iff.
  induction w as [|c w IH]; [discriminate|].
  cbn [all_chars] in Hall. apply andb_true_iff in Hall as [Hc Hw].
  change (String c w ++ String "-" EmptyString)
    with (String c (w ++ String "-" EmptyString)).
  cbn [rstrip]. destruct w as [|y t].
  - cbn. destruct (Ascii.eqb c "-") eqn:Ec; [|reflexivity].
    apply hyphen_not_letter in Ec. congruence.
  - now rewrite (IH eq_refl Hw).
Qed.

Lemma lstrip_letter_first s : letter_first s -> s <> EmptyString -> lstrip "-" s = s.
Proof.
  destruct s as [|c s]; [contradiction|]. cbn [letter_first lstrip]. intros Hc _.
  destruct (Ascii.eqb c "-") eqn:Ec; [|reflexivity].
  apply hyphen_not_letter in Ec. congruence.
Qed.

(** X14. A hyphen at the end of an alphabetic word is ignored, and a hyphen
    at its beginning hides the word: [nsyl] gives ["word-"] the count of
    ["word"], and gives ["-word"] the count 1. *)
Theorem nsyl_hyphen_at_end d limit word :
  isalpha word = true ->
  nsyl d (S (S limit)) (word ++ String "-" EmptyString) = nsyl d (S (S limit)) word /\
  nsyl d (S limit) (String "-" word) = Ok 1.
Proof.
  intros Ha. pose proof Ha as Ha'.
  unfold isalpha in Ha'. apply andb_true_iff in Ha' as [Hne Hall].
  split.
  - rewrite (nsyl_eq d (S limit) (word ++ String "-" EmptyString)).
    assert (all_chars letter_or_hyphen (word ++ String "-" EmptyString) = true) as Hlh.
    { rewrite all_chars_append, (letters_are_letters_or_hyphens _ Hall). reflexivity. }
    assert (has_char "-" (word ++ String "-" EmptyString) = true) as Hh.
    { unfold has_char. clear -word. induction word as [|c w IH]; [reflexivity|].
      change (String c w ++ String "-" EmptyString)
        with (String c (w ++ String "-" EmptyString)).
      now apply any_char_cons. }
    assert (isalpha (word ++ String "-" EmptyString) = false) as ->.
    { destruct (isalpha (word ++ String "-" EmptyString)) eqn:E; [|reflexivity].
      apply isalpha_no_hyphen in E. congruence. }
    rewrite Hh. unfold re_search at 1. rewrite not_letter_hyphen_search, Hlh.
    cbn [negb].
    assert (re_search re_letters_hyphen_letters (word ++ String "-" EmptyString)
            = false) as ->.
    { destruct (re_search re_letters_hyphen_letters
                  (word ++ String "-" EmptyString)) eqn:E; [|reflexivity].
      apply search_hyphen_then_letter in E.
      now rewrite no_hyphen_then_letter_at_end in E. }
    assert (re_search re_letters_hyphen_end (word ++ String "-" EmptyString)
            = true) as ->.
    { apply search_here. unfold re_letters_hyphen_end.
      apply match_plus_append; [exact Hne|now apply isalpha_letters|].
      intros prev. reflexivity. }
    unfold strip.
    rewrite lstrip_letter_first.
    + rewrite (rstrip_trailing_hyphen word Ha). now rewrite !nsyl_letters.
    + destruct word as [|c w]; [discriminate|]. cbn [all_chars] in Hall.
      now apply andb_true_iff in Hall as [Hc _].
    + now destruct word.
  - rewrite nsyl_eq. change (isalpha (String "-" word)) with false.
    change (has_char "-" (String "-" word)) with true. cbv iota.
    unfold re_search at 1. rewrite not_letter_hyphen_search.
    cbn [all_chars]. rewrite (letters_are_letters_or_hyphens _ Hall). cbn [negb andb].
    change (letter_or_hyphen "-") with true. cbn [negb andb].
    assert (letter_then_hyphen (String "-" word) = false) as Hl.
    { destruct word as [|c w]; [reflexivity|]. rewrite letter_then_hyphen_eq.
      now rewrite (no_letter_then_hyphen_letters _ Hall). }
    assert (re_search re_letters_hyphen_letters (String "-" word) = false) as ->.
    { destruct (re_search re_letters_hyphen_letters (String "-" word)) eqn:E;
        [|reflexivity].
      apply search_letter_then_hyphen in E. congruence. }
    assert (re_search re_letters_hyphen_end (String "-" word) = false) as ->.
    { destruct (re_search re_letters_hyphen_end (String "-" word)) eqn:E;
        [|reflexivity].
      apply search_letter_then_hyphen in E. congruence. }
    reflexivity.
Qed.

(** X14, an instance. *)
Lemma nsyl_hyphen_at_end_witness :
  nsyl cmu_sample 2 "beautiful-" = nsyl cmu_sample 2 "beautiful" /\
  nsyl cmu_sample 1 "-beautiful" = Ok 1.
Proof. apply (nsyl_hyphen_at_end cmu_sample 0 "beautiful"). reflexivity. Defined.

(** *** The recursion limit, and the dictionary branch *)

Lemma for_each_sum_ext {A : Type} (f g : A -> result Z) xs :
  (forall x, In x xs -> f x = g x) ->
  forall acc,
    for_each xs (fun s x => let* n := f x in Ok (s + n)) acc =
    for_each xs (fun s x => let* n := g x in Ok (s + n)) acc.
Proof.
  induction xs as [|x xs IH]; intros H acc; [reflexivity|].
  cbn [for_each]. rewrite (H x ltac:(now left)).
  destruct (g x) as [n|e]; cbn [bind]; [|reflexivity].
  apply IH. intros y Hy. apply H. now right.
Qed.

(** X15. On a word in which no letter is directly followed by two hyphens
    the recursion of [nsyl] is two calls deep at most: with any limit of 2 or
    more the result is the one of the limit 2, and it is not
    [RecursionError]. *)
Theorem nsyl_limit_irrelevant d limit word :
  re_search re_letter_two_hyphens word = false ->
  nsyl d (S (S limit)) word = nsyl d 2 word /\
  nsyl d (S (S limit)) word <> Raise RecursionError.
Proof.
  intros Hw. split; [|now apply nsyl_depth_two].
  rewrite (nsyl_eq d (S limit) word), (nsyl_eq d 1 word).
  destruct (isalpha word); [reflexivity|].
  destruct (has_char "-" word); [|reflexivity].
  destruct (re_search re_not_letter_hyphen word) eqn:E1; [reflexivity|].
  unfold re_search in E1. rewrite not_letter_hyphen_search in E1.
  apply negb_false_iff in E1.
  destruct (re_search re_letters_hyphen_letters word) eqn:E2.
  - apply for_each_sum_ext. intros piece Hin.
    pose proof (split_letters word E1) as Hall.
    rewrite List.Forall_forall in Hall. specialize (Hall _ Hin).
    now rewrite !nsyl_letters.
  - destruct (re_search re_letters_hyphen_end word); [|reflexivity].
    pose proof (strip_letters word E1 E2 Hw) as Hs.
    now rewrite !nsyl_letters.
Qed.

(** X15, an instance. *)
Lemma nsyl_limit_irrelevant_witness :
  nsyl cmu_sample 1000 "well-known" = nsyl cmu_sample 2 "well-known" /\
  nsyl cmu_sample 1000 "well-known" <> Raise RecursionError.
Proof. apply (nsyl_limit_irrelevant cmu_sample 998 "well-known"). reflexivity. Defined.

Lemma syl_list_agreeing n phoneme_list : forall acc : list Z,
  Forall (fun phoneme_set => count_stressed phoneme_set = Ok n) phoneme_list ->
  for_each phoneme_list
    (fun syl_list phoneme_set =>
       let* m := count_stressed phoneme_set in Ok (syl_list ++ [m])%list)
    acc
  = Ok (acc ++ map (fun _ => n) phoneme_list)%list.
Proof.
  induction phoneme_list as [|v rest IH]; intros acc H.
  - cbn. now rewrite app_nil_r.
  - inversion H as [|? ? Hv Hrest]; subst.
    cbn [for_each map]. rewrite Hv. cbn [bind]. rewrite (IH _ Hrest).
    now rewrite <- app_assoc.
Qed.

(** X16. When the pronunciations of a dictionary word (one or several) all
    have the same number of stressed phonemes, [nsyl] returns that number
    for a word with no irregular override. *)
Theorem nsyl_agreeing_pronunciations d limit word phoneme_list n :
  isalpha word = true ->
  irregular word = None ->
  d !! lower word = Some phoneme_list ->
  phoneme_list <> [] ->
  Forall (fun phoneme_set => count_stressed phoneme_set = Ok n) phoneme_list ->
  nsyl d (S limit) word = Ok n.
Proof.
  intros Ha Hi Hd Hne Hcounts.
  pose proof (syl_list_agreeing n phoneme_list [] Hcounts) as Hs.
  cbn [app] in Hs.
  rewrite nsyl_eq, Ha, (nsyl_alpha_hit d word _ _ Hd Hs), Hi.
  set (syl_list := map (fun _ => n) phoneme_list).
  assert (forall x, In x syl_list -> x = n) as Hall.
  { intros x (v & <- & _)%in_map_iff. reflexivity. }
  assert (In n syl_list) as Hin.
  { subst syl_list. destruct phoneme_list; [contradiction|now left]. }
  destruct (1 <? length syl_list)%nat.
  - assert (mode syl_list = Ok n) as ->; [|reflexivity].
    apply mode_unique. split; [exact Hin|].
    intros x Hx Hne'. exfalso. apply Hne'. now apply Hall.
  - subst syl_list. destruct phoneme_list; [contradiction|reflexivity].
Qed.

(** X16, an instance: two pronunciations of two syllables. *)
Lemma nsyl_agreeing_pronunciations_witness : nsyl cmu_sample 1 "either" = Ok 2.
Proof.
  apply (nsyl_agreeing_pronunciations cmu_sample 0 "either"
           [["IY1"; "DH"; "ER0"]; ["AY1"; "DH"; "ER0"]] 2);
    try reflexivity.
  - discriminate.
  - repeat constructor.
Defined.

(** X17. With a dictionary each of whose entries has a pronunciation, and in
    each pronunciation a stressed phoneme and no empty phoneme, [nsyl] raises
    no exception other than [RecursionError]. *)
Theorem nsyl_sound_dictionary_errors d limit word e :
  sound_dictionary d ->
  e <> RecursionError ->
  nsyl d limit word <> Raise e.
Proof.
  intros Hd He H. apply He. clear He.
  revert word e H. induction limit as [|limit IH]; intros word e.
  - cbn. now intros [= <-].
  - rewrite nsyl_eq. destruct (isalpha word) eqn:Ea.
    { destruct (nsyl_alpha_at_least_one d word Hd Ea) as (n & -> & _). discriminate. }
    destruct (has_char "-" word); [|discriminate].
    destruct (re_search re_not_letter_hyphen word); [discriminate|].
    destruct (re_search re_letters_hyphen_letters word).
    { apply (for_each_sum_error (nsyl d limit) (fun e => e = RecursionError)).
      intros x e' _. apply IH. }
    destruct (re_search re_letters_hyphen_end word); [apply IH|discriminate].
Qed.

(** X17, an instance. *)
Lemma nsyl_sound_dictionary_errors_witness :
  nsyl cmu_sample 2 "well-known" <> Raise IndexError.
Proof.
  apply (nsyl_sound_dictionary_errors cmu_sample 2 "well-known" IndexError
           cmu_sample_sound).
  discriminate.
Defined.

(** *** More on the word filter *)

Lemma alnum_search prev s :
  search_from re_alnum prev s = any_char is_alnum s.
Proof.
  revert prev. induction s as [|c s IH]; intros prev; [reflexivity|].
  cbn [search_from any_char]. rewrite IH. unfold re_alnum. cbn [match_here].
  rewrite cls_mem_alnum. destruct (is_alnum c); [|reflexivity].
  cbn [andb orb]. now rewrite match_star_skip.
Qed.

(** X18. A token with a hyphen is kept as one word as soon as it has a
    letter or a digit, and an ASCII token with a hyphen and neither letter,
    digit nor apostrophe is dropped: ["well-known"] is a word, ["--"] is
    not. *)
Theorem keep_word_hyphenated token :
  has_char "-" token = true ->
  (any_char is_alnum token = true -> keep_word token = true) /\
  (all_chars is_ascii token = true ->
   any_char is_alnum token = false -> has_char "'" token = false ->
   keep_word token = false).
Proof.
  intros Hh. split.
  - intros Ha. unfold keep_word. rewrite Hh. unfold re_search at 4.
    rewrite alnum_search, Ha. cbn [andb]. apply orb_true_r.
  - intros _ Ha Hq. destruct (keep_word token) eqn:E; [|reflexivity].
    apply keep_word_needs_alnum_or_apostrophe in E as [E|E]; congruence.
Qed.

(** X18, two instances. *)
Lemma keep_word_hyphenated_witness :
  keep_word "well-known" = true /\ keep_word "--" = false.
Proof.
  split.
  - now apply (keep_word_hyphenated "well-known").
  - now apply (keep_word_hyphenated "--").
Defined.

(** X19. The range that ends the apostrophe pattern runs from upper-case A
    to lower-case z, and so holds the six characters between Z and a: a
    token in which an apostrophe is followed by a character of code 65 to
    122 is kept, also when it has no letter and no digit. *)
Theorem keep_word_apostrophe_range a c b :
  (65 <= code c <= 122)%N ->
  keep_word (a ++ String "'" (String c b)) = true.
Proof.
  intros Hc. unfold keep_word.
  assert (re_search re_apostrophe (a ++ String "'" (String c b)) = true) as ->.
  { unfold re_search, re_apostrophe. apply search_append.
    apply match_one_cons; [reflexivity|].
    intros prev. cbn [match_here].
    assert (cls_mem (OneOf [Rng "a" "z"; Rng "A" "z"]) c = true) as ->.
    { unfold cls_mem. cbn [existsb item_mem]. unfold in_range.
      change (code "A") with 65%N. change (code "z") with 122%N.
      destruct Hc as [H1 H2]. apply N.leb_le in H1, H2.
      rewrite H1, H2. cbn [andb]. now rewrite !orb_true_r. }
    now apply match_star_skip. }
  now rewrite orb_true_r.
Qed.

(** X19, an instance: an apostrophe and a circumflex. *)
Lemma keep_word_apostrophe_range_witness : keep_word "'^" = true.
Proof.
  apply (keep_word_apostrophe_range EmptyString "^" EmptyString).
  vm_compute. split; discriminate.
Defined.

(** *** Interpolation inside the tables *)

Lemma segment_bounds (x0 y0 x1 y1 v lo hi : Q) :
  (x0 < x1)%Q -> (x0 <= v)%Q -> (v <= x1)%Q ->
  (lo <= y0)%Q -> (y0 <= hi)%Q -> (lo <= y1)%Q -> (y1 <= hi)%Q ->
  (lo <= (y1 - y0) / (x1 - x0) * (v - x0) + y0)%Q /\
  ((y1 - y0) / (x1 - x0) * (v - x0) + y0 <= hi)%Q.
Proof.
  intros Hx H0 H1 Hl0 Hh0 Hl1 Hh1.
  set (t := ((v - x0) / (x1 - x0))%Q).
  assert (0 < x1 - x0)%Q as Hd by lra.
  assert ((y1 - y0) / (x1 - x0) * (v - x0) + y0 == y0 + (y1 - y0) * t)%Q as ->.
  { subst t. field. lra. }
  assert (0 <= t)%Q as Ht0.
  { subst t. apply Qle_shift_div_l; [exact Hd|lra]. }
  assert (t <= 1)%Q as Ht1.
  { subst t. apply Qle_shift_div_r; [exact Hd|lra]. }
  clearbody t. split; nra.
Qed.

Lemma interpolate_inside lo hi pts : forall v,
  increasing pts = true ->
  ordinates_within lo hi pts = true ->
  (exists p, hd_error pts = Some p /\ (fst p <= v)%Q) ->
  (exists q, List.last pts (v, v) = q /\ (v <= fst q)%Q) ->
  (2 <= length pts)%nat ->
  exists a, interpolate pts v = Ok a /\ (lo <= a)%Q /\ (a <= hi)%Q.
Proof.
  induction pts as [|[x0 y0] pts IH]; intros v Hinc Hord Hfirst Hlast Hlen.
  { cbn in Hlen. lia. }
  destruct pts as [|[x1 y1] rest]; [cbn in Hlen; lia|].
  destruct Hfirst as (p & [= <-] & Hx0). cbn [fst] in Hx0.
  cbn [increasing fst] in Hinc. apply andb_true_iff in Hinc as [Hlt Hinc].
  apply negb_true_iff in Hlt.
  assert (x0 < x1)%Q as Hx.
  { apply Qnot_le_lt. intros H. apply Qle_bool_iff in H. congruence. }
  unfold ordinates_within in Hord. cbn [forallb snd] in Hord.
  apply andb_true_iff in Hord as [Hy0 Hord].
  pose proof Hord as Hord'.
  apply andb_true_iff in Hord as [Hy1 _].
  apply andb_true_iff in Hy0 as [Hl0 Hh0]. apply andb_true_iff in Hy1 as [Hl1 Hh1].
  apply Qle_bool_iff in Hl0, Hh0, Hl1, Hh1.
  cbn [interpolate].
  destruct (Qle_bool x0 v && Qle_bool v x1) eqn:E.
  - apply andb_true_iff in E as [_ E1]. apply Qle_bool_iff in E1.
    eexists. split; [reflexivity|].
    now apply segment_bounds.
  - assert (x1 < v)%Q as Hv.
    { apply Qnot_le_lt. intros H. apply Qle_bool_iff in H.
      apply Qle_bool_iff in Hx0. now rewrite Hx0, H in E. }
    destruct Hlast as (q & Hq & Hvq).
    destruct rest as [|r rest].
    { cbn in Hq. subst q. cbn [fst] in Hvq. lra. }
    apply IH.
    + exact Hinc.
    + exact Hord'.
    + exists (x1, y1). split; [reflexivity|]. cbn [fst]. lra.
    + exists q. split; [|exact Hvq]. exact Hq.
    + cbn [length]. lia.
Qed.

(** X20. Inside its table a converter raises nothing and returns a number
    between the youngest and the oldest age of the table: [convert_fres]
    an age from 10 to 24 for a score from 30 to 100, [convert_ari] an age
    from 5 to 24 for a score from 1 to 14, [convert_gfi] an age from 11 to 24
    for a score from 6 to 17. *)
Theorem converters_inside_table :
  (forall v, (30 <= v)%Q -> (v <= 100)%Q ->
     exists age, convert_fres v = Ok (Num age) /\ (10 <= age)%Q /\ (age <= 24)%Q) /\
  (forall v, (1 <= v)%Q -> (v <= 14)%Q ->
     exists age, convert_ari v = Ok (Num age) /\ (5 <= age)%Q /\ (age <= 24)%Q) /\
  (forall v, (6 <= v)%Q -> (v <= 17)%Q ->
     exists age, convert_gfi v = Ok (Num age) /\ (11 <= age)%Q /\ (age <= 24)%Q).
Proof.
  split; [|split]; intros v Hlo Hhi.
  - unfold convert_fres.
    destruct (Qlt_le_dec v 30) as [H|_]; [exfalso; lra|].
    destruct (Qlt_le_dec 100 v) as [H|_]; [exfalso; lra|].
    unfold interp1d.
    destruct (interpolate_inside 10 24
                (table [100; 90; 80; 70; 60; 50; 30] [10; 11; 12; 13; 15; 18; 24]) v)
      as (a & Ha & Hb); try reflexivity.
    + eexists. split; [reflexivity|exact Hlo].
    + eexists. split; [reflexivity|exact Hhi].
    + apply Nat.leb_le. reflexivity.
    + exists a. unfold table in Ha. rewrite Ha. split; [reflexivity|exact Hb].
  - unfold convert_ari.
    destruct (Qlt_le_dec 14 v) as [H|_]; [exfalso; lra|].
    destruct (Qlt_le_dec v 1) as [H|_]; [exfalso; lra|].
    unfold interp1d.
    destruct (interpolate_inside 5 24
                (table (range 1 15) [5; 6; 7; 9; 10; 11; 12; 13; 14; 15; 16; 17; 18; 24]) v)
      as (a & Ha & Hb); try reflexivity.
    + eexists. split; [reflexivity|exact Hlo].
    + eexists. split; [reflexivity|exact Hhi].
    + apply Nat.leb_le. reflexivity.
    + exists a. unfold table in Ha. rewrite Ha. split; [reflexivity|exact Hb].
  - unfold convert_gfi.
    destruct (Qlt_le_dec 17 v) as [H|_]; [exfalso; lra|].
    destruct (Qlt_le_dec v 6) as [H|_]; [exfalso; lra|].
    unfold interp1d.
    destruct (interpolate_inside 11 24
                (table (range 6 18) [11; 12; 13; 14; 15; 16; 17; 19; 20; 21; 23; 24]) v)
      as (a & Ha & Hb); try reflexivity.
    + eexists. split; [reflexivity|exact Hlo].
    + eexists. split; [reflexivity|exact Hhi].
    + apply Nat.leb_le. reflexivity.
    + exists a. unfold table in Ha. rewrite Ha. split; [reflexivity|exact Hb].
Qed.

(** X20, instances. *)
Lemma converters_inside_table_witness :
  (exists age, convert_fres 65 = Ok (Num age) /\ (10 <= age)%Q /\ (age <= 24)%Q) /\
  (exists age, convert_ari (7 # 2) = Ok (Num age) /\ (5 <= age)%Q /\ (age <= 24)%Q) /\
  (exists age, convert_gfi 17 = Ok (Num age) /\ (11 <= age)%Q /\ (age <= 24)%Q).
Proof.
  destruct converters_inside_table as (F & A & G).
  split; [apply F; discriminate|]. split; [apply A; discriminate|apply G; discriminate].
Defined.

(** X21. At every score of its table, the two ends included, a converter
    returns the age of the table as a number. *)
Theorem converters_reproduce_tables :
  (forall score age,
     In (score, age) (table [100; 90; 80; 70; 60; 50; 30] [10; 11; 12; 13; 15; 18; 24]) ->
     returns_age (convert_fres score) age = true) /\
  (forall score age,
     In (score, age)
       (table (range 1 15) [5; 6; 7; 9; 10; 11; 12; 13; 14; 15; 16; 17; 18; 24]) ->
     returns_age (convert_ari score) age = true) /\
  (forall score age,
     In (score, age)
       (table (range 6 18) [11; 12; 13; 14; 15; 16; 17; 19; 20; 21; 23; 24]) ->
     returns_age (convert_gfi score) age = true).
Proof.
  split; [|split]; intros score age Hin.
  - assert (forallb (fun p => returns_age (convert_fres (fst p)) (snd p))
              (table [100; 90; 80; 70; 60; 50; 30] [10; 11; 12; 13; 15; 18; 24])
            = true) as H by (vm_compute; reflexivity).
    rewrite forallb_forall in H. exact (H _ Hin).
  - assert (forallb (fun p => returns_age (convert_ari (fst p)) (snd p))
              (table (range 1 15) [5; 6; 7; 9; 10; 11; 12; 13; 14; 15; 16; 17; 18; 24])
            = true) as H by (vm_compute; reflexivity).
    rewrite forallb_forall in H. exact (H _ Hin).
  - assert (forallb (fun p => returns_age (convert_gfi (fst p)) (snd p))
              (table (range 6 18) [11; 12; 13; 14; 15; 16; 17; 19; 20; 21; 23; 24])
            = true) as H by (vm_compute; reflexivity).
    rewrite forallb_forall in H. exact (H _ Hin).
Qed.

(** X21, instances: the two ends of the table of [convert_fres]. *)
Lemma converters_reproduce_tables_witness :
  returns_age (convert_fres 30) 24 = true /\
  returns_age (convert_fres 100) 10 = true.
Proof.
  destruct converters_reproduce_tables as (F & _).
  split; apply F; vm_compute; auto 10.
Defined.

(** *** The converters go one way *)

Lemma ordinates_within_weaken lo hi lo' hi' pts :
  (lo' <= lo)%Q -> (hi <= hi')%Q ->
  ordinates_within lo hi pts = true -> ordinates_within lo' hi' pts = true.
Proof.
  intros Hl Hh. unfold ordinates_within. rewrite !forallb_forall.
  intros H p Hp. specialize (H p Hp). apply andb_true_iff in H as [H1 H2].
  apply Qle_bool_iff in H1, H2. apply andb_true_iff.
  split; apply Qle_bool_iff; lra.
Qed.

Lemma ordinates_within_cons lo hi p pts :
  ordinates_within lo hi (p :: pts) =
  Qle_bool lo (snd p) && Qle_bool (snd p) hi && ordinates_within lo hi pts.
Proof. reflexivity. Qed.

Lemma ordered_within up lo hi pts : forall p,
  ordered up (p :: pts) = true ->
  ordinates_within lo hi (p :: pts) = true ->
  ordinates_within (if up then snd p else lo) (if up then hi else snd p) (p :: pts)
  = true.
Proof.
  induction pts as [|q pts IH]; intros p Hord Hin;
    rewrite ordinates_within_cons in Hin; apply andb_true_iff in Hin as [Hp Hrest];
    apply andb_true_iff in Hp as [H1 H2]; apply Qle_bool_iff in H1, H2;
    rewrite ordinates_within_cons; apply andb_true_iff; split;
    try (apply andb_true_iff; destruct up; split; apply Qle_bool_iff; lra).
  - reflexivity.
  - cbn [ordered] in Hord. apply andb_true_iff in Hord as [Hpq Hord].
    specialize (IH q Hord Hrest).
    unfold le_dir_bool in Hpq. destruct up; apply Qle_bool_iff in Hpq.
    + apply (ordinates_within_weaken (snd q) hi); [exact Hpq|lra|exact IH].
    + apply (ordinates_within_weaken lo (snd q)); [lra|exact Hpq|exact IH].
Qed.

Lemma segment_monotone (x0 y0 x1 y1 v w : Q) up :
  (x0 < x1)%Q -> (v <= w)%Q -> le_dir up y0 y1 ->
  le_dir up ((y1 - y0) / (x1 - x0) * (v - x0) + y0)
            ((y1 - y0) / (x1 - x0) * (w - x0) + y0).
Proof.
  intros Hx Hvw Hy.
  set (tv := ((v - x0) / (x1 - x0))%Q). set (tw := ((w - x0) / (x1 - x0))%Q).
  assert (0 < x1 - x0)%Q as Hd by lra.
  assert ((y1 - y0) / (x1 - x0) * (v - x0) + y0 == y0 + (y1 - y0) * tv)%Q as Ev.
  { subst tv. field. lra. }
  assert ((y1 - y0) / (x1 - x0) * (w - x0) + y0 == y0 + (y1 - y0) * tw)%Q as Ew.
  { subst tw. field. lra. }
  assert (tv <= tw)%Q as Ht.
  { subst tv tw. unfold Qdiv. apply Qmult_le_compat_r; [lra|].
    apply Qlt_le_weak, Qinv_lt_0_compat, Hd. }
  clearbody tv tw. unfold le_dir in *. destruct up; rewrite Ev, Ew; nra.
Qed.

Lemma interpolate_monotone up lo hi pts : forall v w,
  increasing pts = true ->
  ordered up pts = true ->
  ordinates_within lo hi pts = true ->
  (exists p, hd_error pts = Some p /\ (fst p <= v)%Q) ->
  (v <= w)%Q ->
  (exists q, List.last pts (w, w) = q /\ (w <= fst q)%Q) ->
  (2 <= length pts)%nat ->
  exists a b,
    interpolate pts v = Ok a /\ interpolate pts w = Ok b /\ le_dir up a b.
Proof.
  induction pts as [|[x0 y0] pts IH]; intros v w Hinc Hord Hin Hfirst Hvw Hlast Hlen.
  { cbn in Hlen. lia. }
  destruct pts as [|[x1 y1] rest]; [cbn in Hlen; lia|].
  destruct Hfirst as (p & [= <-] & Hx0). cbn [fst] in Hx0.
  pose proof Hinc as Hinc0.
  cbn [increasing fst] in Hinc. apply andb_true_iff in Hinc as [Hlt Hinc].
  apply negb_true_iff in Hlt.
  assert (x0 < x1)%Q as Hx.
  { apply Qnot_le_lt. intros H. apply Qle_bool_iff in H. congruence. }
  pose proof Hord as Hord0.
  cbn [ordered snd] in Hord. apply andb_true_iff in Hord as [Hy Hord].
  assert (le_dir up y0 y1) as Hy'.
  { unfold le_dir, le_dir_bool in *. destruct up; now apply Qle_bool_iff. }
  rewrite ordinates_within_cons in Hin. apply andb_true_iff in Hin as [_ Hin].
  cbn [interpolate].
  destruct (Qle_bool x0 v && Qle_bool v x1) eqn:Ev.
  - apply andb_true_iff in Ev as [_ Ev1]. apply Qle_bool_iff in Ev1.
    destruct (Qle_bool x0 w && Qle_bool w x1) eqn:Ew.
    + eexists. eexists. split; [reflexivity|]. split; [reflexivity|].
      now apply segment_monotone.
    + assert (x1 < w)%Q as Hw.
      { apply Qnot_le_lt. intros H. apply Qle_bool_iff in H.
        assert (Qle_bool x0 w = true) as H0 by (apply Qle_bool_iff; lra).
        now rewrite H0, H in Ew. }
      destruct Hlast as (q & Hq & Hwq).
      destruct rest as [|r rest].
      { cbn in Hq. subst q. cbn [fst] in Hwq. lra. }
      pose proof (ordered_within up lo hi (r :: rest) (x1, y1) Hord Hin) as Hbound. cbn [snd] in Hbound.
      destruct (interpolate_inside (if up then y1 else lo) (if up then hi else y1)
                  ((x1, y1) :: r :: rest) w Hinc Hbound)
        as (b & Hb & Hb1 & Hb2).
      * exists (x1, y1). split; [reflexivity|]. cbn [fst]. lra.
      * exists q. split; [exact Hq|exact Hwq].
      * cbn [length]. lia.
      * eexists. exists b. split; [reflexivity|]. split; [exact Hb|].
        unfold le_dir in *. destruct up.
        -- destruct (segment_bounds x0 y0 x1 y1 v y0 y1) as [_ H]; try lra.
        -- destruct (segment_bounds x0 y0 x1 y1 v y1 y0) as [H _]; try lra.
  - assert (x1 < v)%Q as Hv.
    { apply Qnot_le_lt. intros H. apply Qle_bool_iff in H.
      apply Qle_bool_iff in Hx0. now rewrite Hx0, H in Ev. }
    assert (Qle_bool x0 w && Qle_bool w x1 = false) as ->.
    { apply andb_false_iff. right. apply not_true_is_false. intros H.
      apply Qle_bool_iff in H. lra. }
    destruct Hlast as (q & Hq & Hwq).
    destruct rest as [|r rest].
    { cbn in Hq. subst q. cbn [fst] in Hwq. lra. }
    apply IH; try assumption.
    + exists (x1, y1). split; [reflexivity|]. cbn [fst]. lra.
    + exists q. split; [exact Hq|exact Hwq].
    + cbn [length]. lia.
Qed.

(** X22. Inside the tables the converters go one way: a higher Flesch
    score never gives an older age, and a higher ARI or Gunning fog score
    never gives a younger one. *)
Theorem converters_monotone :
  (forall v w, (30 <= v)%Q -> (v <= w)%Q -> (w <= 100)%Q ->
     exists a b, convert_fres v = Ok (Num a) /\ convert_fres w = Ok (Num b) /\
                 (b <= a)%Q) /\
  (forall v w, (1 <= v)%Q -> (v <= w)%Q -> (w <= 14)%Q ->
     exists a b, convert_ari v = Ok (Num a) /\ convert_ari w = Ok (Num b) /\
                 (a <= b)%Q) /\
  (forall v w, (6 <= v)%Q -> (v <= w)%Q -> (w <= 17)%Q ->
     exists a b, convert_gfi v = Ok (Num a) /\ convert_gfi w = Ok (Num b) /\
                 (a <= b)%Q).
Proof.
  split; [|split]; intros v w Hlo Hvw Hhi.
  - unfold convert_fres.
    destruct (Qlt_le_dec v 30) as [H|_]; [exfalso; lra|].
    destruct (Qlt_le_dec 100 v) as [H|_]; [exfalso; lra|].
    destruct (Qlt_le_dec w 30) as [H|_]; [exfalso; lra|].
    destruct (Qlt_le_dec 100 w) as [H|_]; [exfalso; lra|].
    unfold interp1d.
    destruct (interpolate_monotone false 10 24
                (table [100; 90; 80; 70; 60; 50; 30] [10; 11; 12; 13; 15; 18; 24]) v w)
      as (a & b & Ha & Hb & Hab); try reflexivity; try assumption.
    + eexists. split; [reflexivity|exact Hlo].
    + eexists. split; [reflexivity|exact Hhi].
    + apply Nat.leb_le. reflexivity.
    + exists a, b. unfold table in Ha, Hb. rewrite Ha, Hb. repeat split. exact Hab.
  - unfold convert_ari.
    destruct (Qlt_le_dec 14 v) as [H|_]; [exfalso; lra|].
    destruct (Qlt_le_dec v 1) as [H|_]; [exfalso; lra|].
    destruct (Qlt_le_dec 14 w) as [H|_]; [exfalso; lra|].
    destruct (Qlt_le_dec w 1) as [H|_]; [exfalso; lra|].
    unfold interp1d.
    destruct (interpolate_monotone true 5 24
                (table (range 1 15) [5; 6; 7; 9; 10; 11; 12; 13; 14; 15; 16; 17; 18; 24])
                v w)
      as (a & b & Ha & Hb & Hab); try reflexivity; try assumption.
    + eexists. split; [reflexivity|exact Hlo].
    + eexists. split; [reflexivity|exact Hhi].
    + apply Nat.leb_le. reflexivity.
    + exists a, b. unfold table in Ha, Hb. rewrite Ha, Hb. repeat split. exact Hab.
  - unfold convert_gfi.
    destruct (Qlt_le_dec 17 v) as [H|_]; [exfalso; lra|].
    destruct (Qlt_le_dec v 6) as [H|_]; [exfalso; lra|].
    destruct (Qlt_le_dec 17 w) as [H|_]; [exfalso; lra|].
    destruct (Qlt_le_dec w 6) as [H|_]; [exfalso; lra|].
    unfold interp1d.
    destruct (interpolate_monotone true 11 24
                (table (range 6 18) [11; 12; 13; 14; 15; 16; 17; 19; 20; 21; 23; 24])
                v w)
      as (a & b & Ha & Hb & Hab); try reflexivity; try assumption.
    + eexists. split; [reflexivity|exact Hlo].
    + eexists. split; [reflexivity|exact Hhi].
    + apply Nat.leb_le. reflexivity.
    + exists a, b. unfold table in Ha, Hb. rewrite Ha, Hb. repeat split. exact Hab.
Qed.

(** X22, instances. *)
Lemma converters_monotone_witness :
  (exists a b, convert_fres 45 = Ok (Num a) /\ convert_fres 85 = Ok (Num b) /\
               (b <= a)%Q) /\
  (exists a b, convert_ari 2 = Ok (Num a) /\ convert_ari (27 # 2) = Ok (Num b) /\
               (a <= b)%Q).
Proof.
  destruct converters_monotone as (F & A & _).
  split; [apply F; discriminate|apply A; discriminate].
Defined.
